(** * image_metadata: a shallow embedding of the directory scanner and the
    per-file metadata extractor, with the properties of its specification.

    The development follows [image_metadata.py] function by function.  The
    operating system and the image decoder are not part of the program; they
    appear as data: a directory tree whose nodes record what [os.scandir] and
    [Image.open] answer there (a listing, an opened image, or the exception
    they raise).  Python exceptions are an explicit outcome of every fallible
    function. *)

From Stdlib Require Import ZArith String Ascii List Floats DecimalString Lia Bool.
From stdpp Require Import base option list strings gmap.

Local Open Scope Z_scope.
Local Open Scope string_scope.

(* ===================================================================== *)
(** ** Python: exceptions, outcomes, numbers and strings *)
(* ===================================================================== *)

Module Py.

(** The exception classes that can reach the code of [image_metadata.py].
    [OSError] stands for an [OSError] that is none of its subclasses listed
    beside it. *)
Inductive exn : Set :=
  | FileNotFoundError
  | NotADirectoryError
  | PermissionError
  | OSError
  | UnidentifiedImageError
  | DecompressionBombError
  | TypeError
  | ValueError
  | IndexError
  | OverflowError
  | RuntimeError.

#[global] Instance exn_eq_dec : EqDecision exn.
Proof. solve_decision. Defined.

(** [isinstance(e, OSError)]: the subclass relation of the Python hierarchy
    ([UnidentifiedImageError] derives from [OSError] in Pillow). *)
Definition is_OSError (e : exn) : bool :=
  match e with
  | FileNotFoundError | NotADirectoryError | PermissionError | OSError
  | UnidentifiedImageError => true
  | _ => false
  end.

Definition is_PermissionError (e : exn) : bool :=
  match e with PermissionError => true | _ => false end.

(** The outcome of running a piece of Python: a value, a raised exception, or
    the interpreter of the model running out of fuel (shown below never to
    happen for the functions of this file). *)
Inductive res (A : Type) : Type :=
  | Ok (a : A)
  | Raise (e : exn)
  | OutOfFuel.
Arguments Ok {A} a.
Arguments Raise {A} e.
Arguments OutOfFuel {A}.

Definition bind {A B} (m : res A) (k : A -> res B) : res B :=
  match m with
  | Ok a => k a
  | Raise e => Raise e
  | OutOfFuel => OutOfFuel
  end.

(** [try: body except (classes): handler] *)
Definition try_except {A} (body : res A) (classes : exn -> bool) (handler : res A) : res A :=
  match body with
  | Raise e => if classes e then handler else Raise e
  | r => r
  end.

(** Python numbers as they occur in header tags: [int] and [float]. *)
Inductive num : Set :=
  | Int (z : Z)
  | Float (f : float).

(** Correctly rounded conversion of an integer to binary64. *)
Definition float_of_Z (z : Z) : float :=
  SF2Prim (binary_normalize prec emax z 0 false).

(** [float(x)]: an [int] too large for a double raises [OverflowError]. *)
Definition float_ (x : num) : res float :=
  match x with
  | Float f => Ok f
  | Int z =>
      let f := float_of_Z z in
      if PrimFloat.is_infinity f then Raise OverflowError else Ok f
  end.

(** [x == k] for an integer literal [k]. *)
Definition eq_int (x : num) (k : Z) : bool :=
  match x with
  | Int z => Z.eqb z k
  | Float f => PrimFloat.eqb f (float_of_Z k)
  end.

(** [str(n)] and the [{n}] of an f-string, for an [int]. *)
Definition str_int (z : Z) : string := NilZero.string_of_int (Z.to_int z).

(** Strings are byte strings (UTF-8).  [lower] acts on the ASCII letters,
    which is all that the keys of the extension table contain. *)
Definition ascii_lower (c : ascii) : ascii :=
  let n := nat_of_ascii c in
  if ((65 <=? n) && (n <=? 90))%nat then ascii_of_nat (n + 32) else c.

Definition ascii_upper (c : ascii) : ascii :=
  let n := nat_of_ascii c in
  if ((97 <=? n) && (n <=? 122))%nat then ascii_of_nat (n - 32) else c.

Fixpoint str_map (f : ascii -> ascii) (s : string) : string :=
  match s with
  | EmptyString => EmptyString
  | String c s' => String (f c) (str_map f s')
  end.

Definition lower : string -> string := str_map ascii_lower.

(** [str.upper()] maps a few characters outside ASCII to ASCII letters:
    U+00DF to "SS", U+0131 to "I", U+017F to "S", and the ligatures U+FB00 to
    U+FB06 to "FF", "FI", "FL", "FFI", "FFL", "ST", "ST".  These are their
    UTF-8 encodings. *)
Definition upper_of_two_bytes (c0 c1 : ascii) : option string :=
  match N_of_ascii c0, N_of_ascii c1 with
  | 195%N, 159%N => Some "SS"
  | 196%N, 177%N => Some "I"
  | 197%N, 191%N => Some "S"
  | _, _ => None
  end.

Definition upper_of_three_bytes (c0 c1 c2 : ascii) : option string :=
  match N_of_ascii c0, N_of_ascii c1 with
  | 239%N, 172%N =>
      match N_of_ascii c2 with
      | 128%N => Some "FF"
      | 129%N => Some "FI"
      | 130%N => Some "FL"
      | 131%N => Some "FFI"
      | 132%N => Some "FFL"
      | 133%N | 134%N => Some "ST"
      | _ => None
      end
  | _, _ => None
  end.

(** [s.upper()].  The result is exact whenever Python's is made of ASCII
    characters; every other character outside ASCII is left as it is, where
    Python's result has a character outside ASCII too. *)
Fixpoint upper (s : string) : string :=
  match s with
  | EmptyString => EmptyString
  | String c0 s1 =>
      let plain := String (ascii_upper c0) (upper s1) in
      match s1 with
      | EmptyString => plain
      | String c1 s2 =>
          match upper_of_two_bytes c0 c1 with
          | Some u => u +:+ upper s2
          | None =>
              match s2 with
              | EmptyString => plain
              | String c2 s3 =>
                  match upper_of_three_bytes c0 c1 c2 with
                  | Some u => u +:+ upper s3
                  | None => plain
                  end
              end
          end
      end
  end.

(** [s.rfind(".")], counting from index [i] for the head of [s]. *)
Fixpoint rfind_dot (s : string) (i : nat) : option nat :=
  match s with
  | EmptyString => None
  | String c s' =>
      match rfind_dot s' (S i) with
      | Some j => Some j
      | None => if Ascii.eqb c "."%char then Some i else None
      end
  end.

(** [s or d] for a string: the empty string is falsy. *)
Definition str_or (s d : string) : string :=
  match s with EmptyString => d | _ => s end.

End Py.

Import Py.

#[global] Instance res_bind : MBind res := fun A B k m => Py.bind m k.
#[global] Instance res_ret : MRet res := fun A a => Ok a.

(* ===================================================================== *)
(** ** pathlib *)
(* ===================================================================== *)

(** A [Path] is its sequence of parts; [p / name] appends one. *)
Definition Path := list string.

Module PurePath.

Definition name (p : Path) : string := List.last p "".

(** [PurePath.suffix]: the part of the final component from its last dot,
    unless that dot is the first or the last character. *)
Definition suffix (p : Path) : string :=
  let n := name p in
  match rfind_dot n 0 with
  | Some i =>
      if ((0 <? i) && (i <? String.length n - 1))%nat
      then String.substring i (String.length n - i) n
      else ""
  | None => ""
  end.

Definition joinpath (p : Path) (child : string) : Path := (p ++ [child])%list.

End PurePath.

(* ===================================================================== *)
(** ** Pillow: what an opened image exposes *)
(* ===================================================================== *)

(** The entries of [img.info] that the extractor reads.  A key that is absent
    from the dictionary is [None] here.  Resolution tags hold a number or a
    tuple of numbers; compression tags hold a name or a numeric code. *)
Inductive numtag : Set :=
  | Scalar (x : num)
  | Tuple (xs : list num).

Inductive texttag : Set :=
  | Text (s : string)
  | Code (z : Z).

Module Info.
Record t : Set := mk {
  dpi : option numtag;
  jfif_density : option numtag;
  jfif_unit : option num;
  resolution : option numtag;
  compression : option texttag;
  compression_type : option texttag
}.
Definition empty : t := mk None None None None None None.
End Info.

Module Image.
Record t : Set := mk {
  size : Z * Z;
  mode : string;
  getbands : list string;
  bits : option Z;            (* [getattr(img, "bits", None)] *)
  format : option string;
  info : Info.t
}.
End Image.

(** The answer of [Image.open(path)] for a given file. *)
Inductive open_outcome : Set :=
  | Opened (img : Image.t)
  | OpenRaises (e : exn).

Definition Image_open (f : open_outcome) : res Image.t :=
  match f with
  | Opened img => Ok img
  | OpenRaises e => Raise e
  end.

(* ===================================================================== *)
(** ** image_metadata.py: tables and the record type *)
(* ===================================================================== *)

Definition SUPPORTED_EXTENSIONS : gmap string string :=
  <[".jpg" := "JPEG"]> (<[".jpeg" := "JPEG"]> (<[".png" := "PNG"]> (<[".bmp" := "BMP"]>
  (<[".gif" := "GIF"]> (<[".tif" := "TIFF"]> (<[".tiff" := "TIFF"]> (<[".pcx" := "PCX"]> ∅))))))).

Definition MAX_FILES : Z := 100000.

Definition _MODE_DEFAULT_BITS : gmap string Z :=
  <["1" := 1]> (<["L" := 8]> (<["P" := 8]> (<["RGB" := 8]> (<["RGBA" := 8]> (<["CMYK" := 8]>
  (<["YCbCr" := 8]> (<["LAB" := 8]> (<["HSV" := 8]> (<["I" := 16]> (<["I;16" := 16]>
  (<["F" := 32]> ∅))))))))))).

Definition _FORMAT_COMPRESSION_HINTS : gmap string string :=
  <["JPEG" := "JPEG (lossy)"]> (<["PNG" := "Deflate"]> (<["GIF" := "LZW"]>
  (<["BMP" := "None/RLE"]> (<["TIFF" := "Depends on tag"]> (<["PCX" := "RLE"]> ∅))))).

(** [d.get(k, dflt)] *)
Definition dict_get {V} (d : gmap string V) (k : string) (dflt : V) : V :=
  default dflt (d !! k).

Record ImageInfo : Set := mkImageInfo {
  path : Path;
  name : string;
  format : string;
  width_px : Z;
  height_px : Z;
  dpi_x : option float;
  dpi_y : option float;
  color_depth : string;
  compression : string
}.

(* ===================================================================== *)
(** ** The per-file extractor *)
(* ===================================================================== *)

(** [2.54], the binary64 nearest to it. *)
Definition cm_per_inch : float := 0x1.451eb851eb852p+1%float.

(** The shared shape of the "dpi" and "resolution" branches:
    [float(t[0]), float(t[1] if len(t) > 1 else t[0])] for a tuple,
    [float(t), float(t)] otherwise. *)
Definition pair_of_tag (t : numtag) : res (option float * option float) :=
  match t with
  | Tuple xs =>
      match xs with
      | [] => Raise IndexError
      | x0 :: rest =>
          a ← float_ x0;
          b ← float_ (match rest with x1 :: _ => x1 | [] => x0 end);
          Ok (Some a, Some b)
      end
  | Scalar x =>
      a ← float_ x;
      b ← float_ x;
      Ok (Some a, Some b)
  end.

(** [x, y = t] *)
Definition unpack2 (t : numtag) : res (num * num) :=
  match t with
  | Tuple [x; y] => Ok (x, y)
  | Tuple _ => Raise ValueError
  | Scalar _ => Raise TypeError
  end.

Definition _extract_dpi (img : Image.t) : res (option float * option float) :=
  let info := Image.info img in
  match Info.dpi info with
  | Some dpi => pair_of_tag dpi
  | None =>
      let from_resolution :=
        match Info.resolution info with
        | Some r => pair_of_tag r
        | None => Ok (None, None)
        end in
      match Info.jfif_density info with
      | Some d =>
          xy ← unpack2 d;
          let unit := default (Int 0) (Info.jfif_unit info) in
          if eq_int unit 1 then
            a ← float_ (fst xy);
            b ← float_ (snd xy);
            Ok (Some a, Some b)
          else if eq_int unit 2 then
            a ← float_ (fst xy);
            b ← float_ (snd xy);
            Ok (Some (a * cm_per_inch)%float, Some (b * cm_per_inch)%float)
          else from_resolution
      | None => from_resolution
      end
  end.

Definition _describe_color_depth (img : Image.t) : string :=
  let mode := str_or (Image.mode img) "unknown" in
  let bands :=
    match Z.of_nat (List.length (Image.getbands img)) with
    | 0 => 1
    | n => n
    end in
  let bits_per_channel :=
    match Image.bits img with
    | Some b => b
    | None => dict_get _MODE_DEFAULT_BITS mode 8
    end in
  let total_bits := bits_per_channel * bands in
  str_int total_bits +:+ " бит (" +:+ mode +:+ ")".

(** [str(v)] of a compression tag. *)
Definition str_tag (v : texttag) : string :=
  match v with
  | Text s => s
  | Code z => str_int z
  end.

Definition _detect_compression (img : Image.t) : string :=
  let info := Image.info img in
  match Info.compression info with
  | Some c => str_tag c
  | None =>
      match Info.compression_type info with
      | Some c => str_tag c
      | None =>
          let fmt := upper (default "" (Image.format img)) in
          dict_get _FORMAT_COMPRESSION_HINTS fmt "н/д"
      end
  end.

(** A candidate is a path together with the file the walk found there;
    opening the path asks that file. *)
Definition candidate : Set := Path * open_outcome.

Definition caught_by_reader (e : exn) : bool :=
  (bool_decide (e = UnidentifiedImageError)) || is_OSError e.

Definition _read_image_info (c : candidate) : res (option ImageInfo) :=
  let '(p, file) := c in
  try_except
    (img ← Image_open file;
     let '(width, height) := Image.size img in
     dpi ← _extract_dpi img;
     let color_depth := _describe_color_depth img in
     let compression := _detect_compression img in
     Ok (Some {|
       path := p;
       name := PurePath.name p;
       format :=
         match Image.format img with
         | Some (String c s) => String c s
         | _ => dict_get SUPPORTED_EXTENSIONS (lower (PurePath.suffix p)) "Unknown"
         end;
       width_px := width;
       height_px := height;
       dpi_x := fst dpi;
       dpi_y := snd dpi;
       color_depth := color_depth;
       compression := compression
     |}))
    caught_by_reader
    (Ok None).


(* ===================================================================== *)
(** ** The file system seen by the scanner *)
(* ===================================================================== *)

(** A node of the directory tree.  A directory carries what [os.scandir]
    answers for it: its entries in enumeration order, or the exception the call
    raises.  A regular file carries what [Image.open] answers for it. *)
#[local] Set Warnings "-register-all".
Inductive node : Set :=
  | Directory (entries : list (string * node))
  | Unreadable (e : exn)
  | RegularFile (content : open_outcome)
  | Symlink (target : option node)
  | Special.

(** Induction over trees, with the hypothesis for every entry of a listing. *)
Section node_induction.
Variable P : node -> Prop.
Hypothesis P_dir : forall entries, Forall (fun e => P (snd e)) entries -> P (Directory entries).
Hypothesis P_unreadable : forall e, P (Unreadable e).
Hypothesis P_file : forall content, P (RegularFile content).
Hypothesis P_link : forall t, P t -> P (Symlink (Some t)).
Hypothesis P_dangling : P (Symlink None).
Hypothesis P_special : P Special.

Fixpoint node_tree_ind (n : node) : P n :=
  match n with
  | Directory entries =>
      P_dir entries
        ((fix go (l : list (string * node)) : Forall (fun e => P (snd e)) l :=
            match l with
            | [] => List.Forall_nil _
            | (entry_name, c) :: l' =>
                List.Forall_cons _ (entry_name, c) l' (node_tree_ind c) (go l')
            end) entries)
  | Unreadable e => P_unreadable e
  | RegularFile content => P_file content
  | Symlink (Some t) => P_link t (node_tree_ind t)
  | Symlink None => P_dangling
  | Special => P_special
  end.
End node_induction.

(** [DirEntry.is_symlink()] and [is_dir(follow_symlinks=False)]; an entry
    for which [is_file(follow_symlinks=False)] holds is a [RegularFile]. *)
Definition is_symlink (n : node) : bool :=
  match n with Symlink _ => true | _ => false end.

Definition is_dir (n : node) : bool :=
  match n with Directory _ | Unreadable _ => true | _ => false end.

(** Resolution of a path that may be a symbolic link, as [Path.exists()],
    [Path.is_dir()] and [os.scandir] do it; a dangling link resolves to
    nothing. *)
Fixpoint follow (n : node) : option node :=
  match n with
  | Symlink (Some t) => follow t
  | Symlink None => None
  | _ => Some n
  end.

(** [os.scandir(path)] where [path] designates [n]. *)
Definition scandir (n : node) : res (list (string * node)) :=
  match follow n with
  | None => Raise FileNotFoundError
  | Some (Directory entries) => Ok entries
  | Some (Unreadable e) => Raise e
  | Some _ => Raise NotADirectoryError
  end.

(** The answer of a call that the scanner makes about its root: a value or
    a raised exception. *)
Inductive answer (A : Type) : Type :=
  | Returns (a : A)
  | Fails (e : exn).
Arguments Returns {A} a.
Arguments Fails {A} e.

Definition call {A} (x : answer A) : res A :=
  match x with
  | Returns a => Ok a
  | Fails e => Raise e
  end.

(** What the scanner asks of the file system about its root.
    [Path(directory).expanduser()] gives a path or raises ([RuntimeError]
    when the home directory of "~user" cannot be determined).  [lookup] is
    the [stat] behind [Path.exists()] and [Path.is_dir()]: the node at the
    path, nothing when the path does not exist (the errors that both methods
    turn into [False]), or the [OSError] that both let through (a name that
    is too long, a parent that may not be searched). *)
Record FileSystem : Type := mkFS {
  expanduser : string -> answer Path;
  lookup : Path -> answer (option node)
}.

Fixpoint node_size (n : node) : nat :=
  match n with
  | Directory entries =>
      S ((fix sizes (l : list (string * node)) : nat :=
            match l with
            | [] => 0
            | (_, c) :: l' => node_size c + sizes l'
            end) entries)%nat
  | Symlink (Some t) => S (node_size t)
  | _ => 1%nat
  end.

Definition entries_size (l : list (string * node)) : nat :=
  list_sum (map (fun e => node_size (snd e)) l).

Definition stack_size (stack : list (Path * node)) : nat :=
  list_sum (map (fun e => node_size (snd e)) stack).

(* ===================================================================== *)
(** ** The directory walker *)
(* ===================================================================== *)

(** What a generator produces when it is run to its end: the values it
    yields, in order, closed by a normal return, by an exception, or by the
    model's fuel running out. *)
Inductive gen (A : Type) : Type :=
  | Stop
  | Throw (e : exn)
  | Starved
  | Yield (a : A) (rest : gen A).
Arguments Stop {A}.
Arguments Throw {A} e.
Arguments Starved {A}.
Arguments Yield {A} a rest.

Fixpoint yield_all {A} (l : list A) (g : gen A) : gen A :=
  match l with
  | [] => g
  | a :: l' => Yield a (yield_all l' g)
  end.

Definition is_supported (entry_name : string) : bool :=
  bool_decide (is_Some (SUPPORTED_EXTENSIONS !! lower (PurePath.suffix [entry_name]))).

(** One turn of [for entry in it]: the traversal stack (its top is the head
    of the list) and the candidates yielded so far in this directory. *)
Definition visit (current : Path) (recursive : bool)
    (st : list (Path * node) * list candidate) (entry : string * node)
    : list (Path * node) * list candidate :=
  let '(stack, out) := st in
  let '(entry_name, n) := entry in
  if is_symlink n then st
  else if is_dir n && recursive then
    ((PurePath.joinpath current entry_name, n) :: stack, out)
  else
    match n with
    | RegularFile content =>     (* [elif entry.is_file(follow_symlinks=False)] *)
        if is_supported entry_name
        then (stack, (out ++ [(PurePath.joinpath current entry_name, content)])%list)
        else st
    | _ => st
    end.

(** [while stack: current = stack.pop(); try: ... except PermissionError:
    continue].  Every turn of the loop takes one unit of fuel. *)
Fixpoint walk (fuel : nat) (recursive : bool) (stack : list (Path * node))
    : gen candidate :=
  match fuel with
  | O => Starved
  | S fuel' =>
      match stack with
      | [] => Stop
      | (current, n) :: stack' =>
          match scandir n with
          | Ok entries =>
              let '(stack'', out) :=
                fold_left (visit current recursive) entries (stack', []) in
              yield_all out (walk fuel' recursive stack'')
          | Raise e =>
              if is_PermissionError e then walk fuel' recursive stack'
              else Throw e
          | OutOfFuel => Starved
          end
      end
  end.

Definition _iter_supported_files (root : Path * node) (recursive : bool)
    : gen candidate :=
  walk (S (node_size (snd root))) recursive [root].

(* ===================================================================== *)
(** ** scan_directory *)
(* ===================================================================== *)

(** [limit or MAX_FILES]: [None] and [0] are falsy. *)
Definition limit_or (limit : option Z) (d : Z) : Z :=
  match limit with
  | None => d
  | Some 0 => d
  | Some l => l
  end.

(** The body of [for path in ...]: read, append, test the limit, go on. *)
Fixpoint scan_loop (target_limit : Z) (paths : gen candidate)
    (result : list ImageInfo) : res (list ImageInfo) :=
  match paths with
  | Stop => Ok result
  | Throw e => Raise e
  | Starved => OutOfFuel
  | Yield p rest =>
      info ← _read_image_info p;
      let result' :=
        match info with
        | Some i => (result ++ [i])%list
        | None => result
        end in
      if Z.of_nat (List.length result') >=? target_limit
      then Ok result'
      else scan_loop target_limit rest result'
  end.

Definition scan_directory (fs : FileSystem) (directory : string)
    (recursive : bool) (limit : option Z) : res (list ImageInfo) :=
  root ← call (expanduser fs directory);
  found ← call (lookup fs root);
  match found ≫= follow with
  | None => Raise FileNotFoundError              (* [not root.exists()] *)
  | Some n =>
      if negb (is_dir n) then Raise NotADirectoryError
      else
        let target_limit := Z.min (limit_or limit MAX_FILES) MAX_FILES in
        scan_loop target_limit (_iter_supported_files (root, n) recursive) []
  end.

(* ===================================================================== *)
(** ** Observations on generators and trees used by the statements *)
(* ===================================================================== *)

(** The root as the checks of [scan_directory] see it: the expanded path and
    what it resolves to, or the exception that the expansion or the [stat]
    raises. *)
Definition resolve_root (fs : FileSystem) (directory : string)
    : res (Path * option node) :=
  root ← call (expanduser fs directory);
  found ← call (lookup fs root);
  Ok (root, found ≫= follow).

(** The values a generator yields, and whether it ends within its fuel. *)
Fixpoint gen_items {A} (g : gen A) : list A :=
  match g with
  | Yield a rest => a :: gen_items rest
  | _ => []
  end.

Fixpoint finishes {A} (g : gen A) : bool :=
  match g with
  | Starved => false
  | Yield _ rest => finishes rest
  | _ => true
  end.

Fixpoint gen_raises {A} (g : gen A) : option exn :=
  match g with
  | Throw e => Some e
  | Yield _ rest => gen_raises rest
  | _ => None
  end.

(** The regular files of a tree that can be reached without crossing a
    symbolic link inside it (a link at the top is followed, as [os.scandir]
    follows the path it is given). *)
Fixpoint files_of (n : node) : list open_outcome :=
  match n with
  | Directory entries =>
      (fix go (l : list (string * node)) : list open_outcome :=
         match l with
         | [] => []
         | (_, c) :: l' => ((if is_symlink c then [] else files_of c) ++ go l')%list
         end) entries
  | RegularFile content => [content]
  | Symlink (Some t) => files_of t
  | _ => []
  end.

(** The same tree with every symbolic-link entry removed from the listings. *)
Fixpoint without_symlinks (n : node) : node :=
  match n with
  | Directory entries =>
      Directory
        ((fix go (l : list (string * node)) : list (string * node) :=
            match l with
            | [] => []
            | (entry_name, c) :: l' =>
                if is_symlink c then go l'
                else (entry_name, without_symlinks c) :: go l'
            end) entries)
  | Symlink (Some t) => Symlink (Some (without_symlinks t))
  | _ => n
  end.

(** The same tree where every directory that refuses enumeration with a
    [PermissionError] is an empty directory instead. *)
Fixpoint denied_as_empty (n : node) : node :=
  match n with
  | Directory entries =>
      Directory
        ((fix go (l : list (string * node)) : list (string * node) :=
            match l with
            | [] => []
            | (entry_name, c) :: l' => (entry_name, denied_as_empty c) :: go l'
            end) entries)
  | Unreadable e => if is_PermissionError e then Directory [] else Unreadable e
  | Symlink (Some t) => Symlink (Some (denied_as_empty t))
  | _ => n
  end.

(** Transformations of trees, entry by entry: [keep] tells which entries of
    a listing stay, [T] what becomes of those. *)
Definition map_entries (keep : node -> bool) (T : node -> node)
    (l : list (string * node)) : list (string * node) :=
  flat_map (fun e => if keep (snd e) then [(fst e, T (snd e))] else []) l.

Definition map_stack (T : node -> node) (stack : list (Path * node))
    : list (Path * node) :=
  map (fun x => (fst x, T (snd x))) stack.

(** The records of the candidates that the reader accepts, in order. *)
Definition read_ok (c : candidate) : option ImageInfo :=
  match _read_image_info c with
  | Ok o => o
  | _ => None
  end.

Definition readable (cs : list candidate) : list ImageInfo := omap read_ok cs.

(** The default-bits table and the compression hints as the specification
    words them, to be compared with the dictionaries of the source. *)
Definition spec_default_bits (mode : string) : Z :=
  if bool_decide (mode = "1") then 1
  else if bool_decide (mode ∈ ["L"; "P"; "RGB"; "RGBA"; "CMYK"; "YCbCr"; "LAB"; "HSV"]) then 8
  else if bool_decide (mode ∈ ["I"; "I;16"]) then 16
  else if bool_decide (mode = "F") then 32
  else 8.

Definition spec_compression_hint (fmt : string) : string :=
  if bool_decide (fmt = "JPEG") then "JPEG (lossy)"
  else if bool_decide (fmt = "PNG") then "Deflate"
  else if bool_decide (fmt = "GIF") then "LZW"
  else if bool_decide (fmt = "BMP") then "None/RLE"
  else if bool_decide (fmt = "TIFF") then "Depends on tag"
  else if bool_decide (fmt = "PCX") then "RLE"
  else "н/д".

(* ===================================================================== *)
(** ** The traversal, described by recursion on the tree *)
(* ===================================================================== *)

(** Running one generator after another: the second starts when the first
    returns, and never starts when the first raises. *)
Fixpoint gen_app {A} (g1 g2 : gen A) : gen A :=
  match g1 with
  | Stop => g2
  | Throw e => Throw e
  | Starved => Starved
  | Yield a rest => Yield a (gen_app rest g2)
  end.

(** The candidates among the entries of one directory, in listing order. *)
Definition own_files (current : Path) (entries : list (string * node))
    : list candidate :=
  flat_map
    (fun e =>
       match snd e with
       | RegularFile content =>
           if is_supported (fst e)
           then [(PurePath.joinpath current (fst e), content)]
           else []
       | _ => []
       end)
    entries.

(** The directories that a pass over the entries pushes, the last one on
    top. *)
Definition pushes (current : Path) (recursive : bool)
    (entries : list (string * node)) (stack : list (Path * node))
    : list (Path * node) :=
  fold_left
    (fun st e =>
       if is_dir (snd e) && recursive
       then (PurePath.joinpath current (fst e), snd e) :: st
       else st)
    entries stack.

(** Depth first: the candidates of a directory itself, then its
    subdirectories from the last entry back, each with all that lies below
    it; a directory that refuses enumeration with [PermissionError] gives
    nothing, any other failure of [os.scandir] ends the traversal. *)
Fixpoint traverse (recursive : bool) (current : Path) (n : node) : gen candidate :=
  match n with
  | Directory entries =>
      yield_all (own_files current entries)
        ((fix subdirs (l : list (string * node)) (later : gen candidate)
            : gen candidate :=
            match l with
            | [] => later
            | (entry_name, c) :: l' =>
                subdirs l'
                  (if is_dir c && recursive
                   then gen_app
                          (traverse recursive (PurePath.joinpath current entry_name) c)
                          later
                   else later)
            end) entries Stop)
  | Unreadable e => if is_PermissionError e then Stop else Throw e
  | Symlink (Some t) => traverse recursive current t
  | Symlink None => Throw FileNotFoundError
  | RegularFile _ | Special => Throw NotADirectoryError
  end.

(** The subdirectories among the entries that a pass pushes, in listing
    order. *)
Definition dir_entries (current : Path) (recursive : bool)
    (entries : list (string * node)) : list (Path * node) :=
  flat_map
    (fun e =>
       if is_dir (snd e) && recursive
       then [(PurePath.joinpath current (fst e), snd e)]
       else [])
    entries.

Definition traverse_stack (recursive : bool) (stack : list (Path * node))
    : gen candidate :=
  fold_right (fun x later => gen_app (traverse recursive (fst x) (snd x)) later)
    Stop stack.

(** The supported regular files below a node, in listing order, leaving out
    what lies behind a symbolic-link entry or in a directory that refuses
    enumeration. *)
Fixpoint reachable_files (recursive : bool) (current : Path) (n : node)
    : list candidate :=
  match n with
  | Directory entries =>
      (fix go (l : list (string * node)) : list candidate :=
         match l with
         | [] => []
         | (entry_name, c) :: l' =>
             ((if is_dir c && recursive
               then reachable_files recursive (PurePath.joinpath current entry_name) c
               else match c with
                    | RegularFile content =>
                        if is_supported entry_name
                        then [(PurePath.joinpath current entry_name, content)]
                        else []
                    | _ => []
                    end) ++ go l')%list
         end) entries
  | Symlink (Some t) => reachable_files recursive current t
  | _ => []
  end.

(** Every directory that the walk enumerates lists its entries or refuses
    with [PermissionError]. *)
Fixpoint denials_only (recursive : bool) (n : node) : bool :=
  match n with
  | Directory entries =>
      (fix go (l : list (string * node)) : bool :=
         match l with
         | [] => true
         | (_, c) :: l' =>
             (if is_dir c && recursive then denials_only recursive c else true)
             && go l'
         end) entries
  | Unreadable e => is_PermissionError e
  | Symlink (Some t) => denials_only recursive t
  | _ => false
  end.

(* ===================================================================== *)
(** ** app.py: what the page shows below the form *)
(* ===================================================================== *)

Module App.

(** The elements the script renders after the form.  [report] stands for
    all that lines 52 to 94 build from a non-empty result: the metrics, the
    statistics by format, the table and the download button.  Building them
    is the work of pandas and Streamlit, which may raise (a file name that
    cannot be encoded as UTF-8 for the download, for one); that work is the
    [render] argument of [page]. *)
Inductive element : Set :=
  | error (body : string)
  | info (body : string)
  | warning (body : string)
  | report (results : list ImageInfo).

Definition not_found : string := "Папка не найдена. Проверьте путь и права доступа.".
Definition not_a_directory : string := "Указан не каталог. Введите путь к папке.".
Definition hint : string := "Укажите папку и нажмите «Сканировать».".
Definition nothing_found : string := "Подходящих файлов не найдено.".

(** [results = None; if submitted: try: results = scan_directory(directory,
    limit=int(limit)) except FileNotFoundError: ... except
    NotADirectoryError: ...]: the messages shown and the value of [results]. *)
Definition submit (fs : FileSystem) (submitted : bool) (directory : string)
    (limit : Z) : res (list element * option (list ImageInfo)) :=
  if submitted then
    match scan_directory fs directory true (Some limit) with
    | Ok results => Ok ([], Some results)
    | Raise FileNotFoundError => Ok ([error not_found], None)
    | Raise NotADirectoryError => Ok ([error not_a_directory], None)
    | Raise e => Raise e
    | OutOfFuel => OutOfFuel
    end
  else Ok ([], None).

(** [if results is None: st.info(...); st.stop()], [if not results:
    st.warning(...); st.stop()], then the report. *)
Definition page (render : list ImageInfo -> res unit) (fs : FileSystem)
    (submitted : bool) (directory : string) (limit : Z) : res (list element) :=
  shown_results ← submit fs submitted directory limit;
  match snd shown_results with
  | None => Ok (fst shown_results ++ [info hint])%list
  | Some [] => Ok (fst shown_results ++ [warning nothing_found])%list
  | Some results =>
      _ ← render results;
      Ok (fst shown_results ++ [report results])%list
  end.

End App.

(* ===================================================================== *)
(** ** Sample inputs *)
(* ===================================================================== *)

Definition img_rgb : Image.t :=
  Image.mk (640, 480) "RGB" ["R"; "G"; "B"] None (Some "PNG") Info.empty.

Definition img_jfif_cm : Image.t :=
  Image.mk (800, 600) "RGB" ["R"; "G"; "B"] (Some 8) (Some "JPEG")
    (Info.mk None (Some (Tuple [Int 96; Int 96])) (Some (Int 2)) None None None).


(** A file system that holds [tree] at [root] and nothing elsewhere. *)
Definition fs_of (root : string) (tree : node) : FileSystem :=
  mkFS (fun d => Returns [d])
       (fun p => Returns (if decide (p = [root]) then Some tree else None)).

(** The same, where "~nobody" names a user without a home directory and a
    path with a component of more than 255 bytes is refused by [stat]. *)
Definition fs_strict (root : string) (tree : node) : FileSystem :=
  mkFS (fun d => if decide (d = "~nobody") then Fails RuntimeError else Returns [d])
       (fun p =>
          if bool_decide (Forall (fun part => (String.length part <= 255)%nat) p)
          then Returns (if decide (p = [root]) then Some tree else None)
          else Fails OSError).

Definition long_name : string :=
  String.concat "" (replicate 64 "photo").

Definition tree_mixed : node :=
  Directory
    [("a.png", RegularFile (Opened img_rgb));
     ("sub", Directory [("b.JPG", RegularFile (Opened img_jfif_cm));
                        ("notes.txt", RegularFile (OpenRaises UnidentifiedImageError))]);
     ("link.png", Symlink (Some (RegularFile (Opened img_rgb))));
     ("broken", Directory [("d.gif", RegularFile (OpenRaises UnidentifiedImageError));
                           (".png", RegularFile (Opened img_rgb))]);
     ("denied", Unreadable PermissionError);
     ("e.tiff", RegularFile (Opened img_rgb))].

Definition tree_one_image : node :=
  Directory [("a.png", RegularFile (Opened img_rgb))].

Definition tree_bomb : node :=
  Directory [("huge.png", RegularFile (OpenRaises DecompressionBombError));
             ("a.png", RegularFile (Opened img_rgb))].

Definition tree_io_error : node :=
  Directory [("a.png", RegularFile (Opened img_rgb)); ("vol", Unreadable OSError)].

Definition tree_vanished : node :=
  Directory [("a.png", RegularFile (Opened img_rgb));
             ("gone", Unreadable FileNotFoundError)].


(** The report of a page that renders without failure, and of one whose
    CSV export refuses a name (a [UnicodeEncodeError], which is a
    [ValueError]). *)
Definition render_ok (results : list ImageInfo) : res unit := Ok tt.

Definition render_strict (results : list ImageInfo) : res unit :=
  if bool_decide (Forall (fun i => name i <> "bad-name.png") results)
  then Ok tt else Raise ValueError.

Definition tree_bad_name : node :=
  Directory [("bad-name.png", RegularFile (Opened img_rgb))].

Definition tree_unreadable_file : node :=
  Directory [("locked.png", RegularFile (OpenRaises PermissionError));
             ("a.png", RegularFile (Opened img_rgb))].

(* ===================================================================== *)
(** ** Extensions *)
(* ===================================================================== *)

Example suffix_examples :
  PurePath.suffix ["scan.PNG"] = ".PNG"
  /\ PurePath.suffix ["x.tar.gz"] = ".gz"
  /\ PurePath.suffix [".png"] = ""
  /\ PurePath.suffix ["trailing."] = ""
  /\ is_supported "B.JPG" = true
  /\ is_supported ".png" = false
  /\ is_supported "notes.txt" = false.
Proof. repeat split; vm_compute; reflexivity. Qed.

Example upper_examples :
  upper "gif" = "GIF"
  /\ upper "Tiff" = "TIFF"
  /\ upper "gıf" = "GIF"
  /\ upper "ﬃ" = "FFI"
  /\ _detect_compression
       (Image.mk (1, 1) "P" ["P"] None (Some "gıf") Info.empty) = "LZW".
Proof. repeat split; vm_compute; reflexivity. Qed.

(* ===================================================================== *)
(** ** Tables *)
(* ===================================================================== *)

Ltac table_lookup k :=
  repeat (rewrite lookup_insert; case_decide;
          [ subst k; vm_compute; reflexivity | ]);
  rewrite lookup_empty.

Lemma mode_default_bits_table (mode : string) :
  dict_get _MODE_DEFAULT_BITS mode 8 = spec_default_bits mode.
Proof.
  unfold dict_get, _MODE_DEFAULT_BITS.
  table_lookup mode.
  unfold spec_default_bits.
  rewrite !bool_decide_eq_false_2; [reflexivity | | | |];
    rewrite ?elem_of_cons, ?elem_of_nil; intuition congruence.
Qed.

Lemma compression_hints_table (fmt : string) :
  dict_get _FORMAT_COMPRESSION_HINTS fmt "н/д" = spec_compression_hint fmt.
Proof.
  unfold dict_get, _FORMAT_COMPRESSION_HINTS.
  table_lookup fmt.
  unfold spec_compression_hint.
  rewrite !bool_decide_eq_false_2; [reflexivity | | | | | |]; congruence.
Qed.

(* ===================================================================== *)
(** ** Colour depth and compression *)
(* ===================================================================== *)

(** C8.  The colour-depth label of an opened image is
    "<total_bits> бит (<mode>)", where the total is the bits per channel (the
    explicit [bits] field when the image has one, else the per-mode default:
    1 for "1", 8 for the 8-bit modes, 16 for "I" and "I;16", 32 for "F", and
    8 for a mode outside the table) times the number of bands.  The first
    part gives the label of every image, with the substitutes the code uses
    for an empty mode name and an empty band tuple; the second is the label
    of an image that has a mode name and at least one band; the third is the
    instance of an 8-bit, 3-band "RGB" image. *)
Theorem color_depth_label (img : Image.t) :
  let bits_of mode :=
    match Image.bits img with
    | Some b => b
    | None => spec_default_bits mode
    end in
  let count := Z.of_nat (List.length (Image.getbands img)) in
  _describe_color_depth img
    = str_int (bits_of (str_or (Image.mode img) "unknown") * (if (count =? 0)%Z then 1 else count))
      +:+ " бит (" +:+ str_or (Image.mode img) "unknown" +:+ ")"
  /\ (Image.mode img <> "" -> Image.getbands img <> [] ->
      _describe_color_depth img
        = str_int (bits_of (Image.mode img) * count)
          +:+ " бит (" +:+ Image.mode img +:+ ")")
  /\ (Image.mode img = "RGB" -> List.length (Image.getbands img) = 3%nat ->
      Image.bits img = None \/ Image.bits img = Some 8 ->
      _describe_color_depth img = "24 бит (RGB)").
Proof.
  intros bits_of count.
  assert (General : _describe_color_depth img
    = str_int (bits_of (str_or (Image.mode img) "unknown") * (if (count =? 0)%Z then 1 else count))
      +:+ " бит (" +:+ str_or (Image.mode img) "unknown" +:+ ")").
  { unfold _describe_color_depth, bits_of, count.
    rewrite mode_default_bits_table.
    destruct (Z.of_nat (List.length (Image.getbands img))) eqn:E; reflexivity. }
  split; [exact General | split].
  - intros Hmode Hbands. rewrite General.
    assert ((count =? 0)%Z = false) as ->.
    { apply Z.eqb_neq. unfold count.
      destruct (Image.getbands img); [congruence | simpl; lia]. }
    destruct (Image.mode img); [congruence | reflexivity].
  - intros Hmode Hlen Hbits. rewrite General. unfold bits_of, count.
    rewrite Hmode, Hlen.
    destruct Hbits as [-> | ->]; vm_compute; reflexivity.
Qed.

Lemma color_depth_label_witness :
  _describe_color_depth img_rgb = "24 бит (RGB)".
Proof.
  apply (color_depth_label img_rgb).
  - reflexivity.
  - reflexivity.
  - left. reflexivity.
Defined.

(** C9.  The compression field is the explicit "compression" tag when the
    header carries one, else the "compression_type" tag, else the hint of
    the format (JPEG "JPEG (lossy)", PNG "Deflate", GIF "LZW", BMP
    "None/RLE", TIFF "Depends on tag", PCX "RLE"), else "н/д".  In particular
    a PNG without a tag gives "Deflate" and a format outside the table
    without a tag gives "н/д". *)
Theorem compression_cascade (img : Image.t) :
  let info := Image.info img in
  let fmt := upper (default "" (Image.format img)) in
  (forall c, Info.compression info = Some c -> _detect_compression img = str_tag c)
  /\ (forall c, Info.compression info = None -> Info.compression_type info = Some c ->
      _detect_compression img = str_tag c)
  /\ (Info.compression info = None -> Info.compression_type info = None ->
      _detect_compression img = spec_compression_hint fmt
      /\ (Image.format img = Some "PNG" -> _detect_compression img = "Deflate")
      /\ (fmt ∉ ["JPEG"; "PNG"; "GIF"; "BMP"; "TIFF"; "PCX"] ->
          _detect_compression img = "н/д")).
Proof.
  intros info fmt. unfold _detect_compression. fold info. fold fmt.
  split; [| split].
  - intros c ->. reflexivity.
  - intros c -> ->. reflexivity.
  - intros -> ->. rewrite compression_hints_table.
    split; [reflexivity | split].
    + intros Hf. unfold fmt. rewrite Hf. vm_compute. reflexivity.
    + intros Hout. unfold spec_compression_hint.
      rewrite !bool_decide_eq_false_2; [reflexivity | | | | | |];
        intros ->; apply Hout; rewrite ?elem_of_cons; tauto.
Qed.

Lemma compression_cascade_witness :
  _detect_compression img_rgb = "Deflate".
Proof.
  apply (compression_cascade img_rgb); reflexivity.
Defined.

(* ===================================================================== *)
(** ** Resolution *)
(* ===================================================================== *)

(** The broadcast rule of the "dpi" and "resolution" tags. *)
Lemma pair_of_tag_pair x0 x1 rest :
  pair_of_tag (Tuple (x0 :: x1 :: rest))
  = (a ← float_ x0; b ← float_ x1; Ok (Some a, Some b)).
Proof. reflexivity. Qed.

Lemma pair_of_tag_single x0 :
  pair_of_tag (Tuple [x0]) = (a ← float_ x0; b ← float_ x0; Ok (Some a, Some b)).
Proof. reflexivity. Qed.

Lemma pair_of_tag_scalar x :
  pair_of_tag (Scalar x) = (a ← float_ x; b ← float_ x; Ok (Some a, Some b)).
Proof. reflexivity. Qed.

(** C5.  Resolution is taken from the first tag that gives one: the "dpi"
    tag (a pair, or one number for both axes); else the "jfif_density" pair,
    as it is when the unit code is 1 and times 2.54 on both axes when it is
    2; with any other or no unit code that tag gives nothing and the
    "resolution" tag is read with the rule of "dpi"; with none of them both
    values are [None], which is not (0, 0).  Density (96, 96) with unit 2
    gives 96 * 2.54 on both axes. *)
Theorem dpi_cascade (img : Image.t) :
  let info := Image.info img in
  let unit := default (Int 0) (Info.jfif_unit info) in
  let broadcast t r :=
    (forall x0 x1 rest, t = Tuple (x0 :: x1 :: rest) ->
       r = (a ← float_ x0; b ← float_ x1; Ok (Some a, Some b)))
    /\ (forall x0, t = Tuple [x0] ->
       r = (a ← float_ x0; b ← float_ x0; Ok (Some a, Some b)))
    /\ (forall x, t = Scalar x ->
       r = (a ← float_ x; b ← float_ x; Ok (Some a, Some b))) in
  (* a. the "dpi" tag *)
  (forall t, Info.dpi info = Some t -> broadcast t (_extract_dpi img))
  (* b. the "jfif_density" tag with its unit code *)
  /\ (forall x y, Info.dpi info = None -> Info.jfif_density info = Some (Tuple [x; y]) ->
      (eq_int unit 1 = true ->
         _extract_dpi img = (a ← float_ x; b ← float_ y; Ok (Some a, Some b)))
      /\ (eq_int unit 1 = false -> eq_int unit 2 = true ->
         _extract_dpi img
         = (a ← float_ x; b ← float_ y;
            Ok (Some (a * cm_per_inch)%float, Some (b * cm_per_inch)%float)))
      /\ (x = Int 96 -> y = Int 96 -> Info.jfif_unit info = Some (Int 2) ->
         _extract_dpi img
         = Ok (Some (float_of_Z 96 * cm_per_inch)%float,
               Some (float_of_Z 96 * cm_per_inch)%float)
         /\ (float_of_Z 96 * cm_per_inch)%float = 0x1.e7ae147ae147bp+7%float))
  (* c. the "resolution" tag, when the density tag is absent or gives nothing *)
  /\ (forall t, Info.dpi info = None ->
      Info.jfif_density info = None
      \/ (exists x y, Info.jfif_density info = Some (Tuple [x; y])
          /\ eq_int unit 1 = false /\ eq_int unit 2 = false) ->
      Info.resolution info = Some t -> broadcast t (_extract_dpi img))
  (* d. nothing *)
  /\ (Info.dpi info = None ->
      Info.jfif_density info = None
      \/ (exists x y, Info.jfif_density info = Some (Tuple [x; y])
          /\ eq_int unit 1 = false /\ eq_int unit 2 = false) ->
      Info.resolution info = None ->
      _extract_dpi img = Ok (None, None)
      /\ _extract_dpi img <> Ok (Some 0%float, Some 0%float)).
Proof.
  intros info unit broadcast.
  assert (Hb : forall t, broadcast t (pair_of_tag t)).
  { intros t. unfold broadcast. repeat split; intros; subst t; reflexivity. }
  unfold _extract_dpi. fold info. fold unit.
  split; [| split; [| split]].
  - intros t ->. apply Hb.
  - intros x y -> ->. cbn [unpack2 mbind res_bind Py.bind fst snd].
    split; [| split].
    + intros ->. reflexivity.
    + intros -> ->. reflexivity.
    + intros -> -> Hu. unfold unit. rewrite Hu.
      split; vm_compute; reflexivity.
  - intros t -> Hd ->.
    destruct Hd as [-> | (x & y & -> & -> & ->)]; apply Hb.
  - intros -> Hd ->.
    destruct Hd as [-> | (x & y & -> & -> & ->)]; split; cbn; congruence.
Qed.

Lemma dpi_cascade_witness :
  _extract_dpi img_jfif_cm
  = Ok (Some (float_of_Z 96 * cm_per_inch)%float,
        Some (float_of_Z 96 * cm_per_inch)%float)
  /\ (float_of_Z 96 * cm_per_inch)%float = 0x1.e7ae147ae147bp+7%float.
Proof.
  pose proof (dpi_cascade img_jfif_cm) as (_ & Hjfif & _).
  apply (Hjfif (Int 96) (Int 96)); reflexivity.
Defined.

(* ===================================================================== *)
(** ** The loop of scan_directory *)
(* ===================================================================== *)

Ltac run_bind := cbn [mbind res_bind Py.bind].

Lemma target_limit_cases (limit : option Z) :
  let t := Z.min (limit_or limit MAX_FILES) MAX_FILES in
  (forall l, limit = Some l -> 1 <= l -> t = Z.min l 100000)
  /\ (limit = None \/ limit = Some 0 -> t = 100000)
  /\ ((forall l, limit = Some l -> 0 <= l) -> 1 <= t).
Proof.
  unfold MAX_FILES. cbn zeta. repeat split.
  - intros l -> Hl. destruct l; try lia. reflexivity.
  - intros [-> | ->]; reflexivity.
  - intros H. destruct limit as [l |]; [| cbn; lia].
    specialize (H l eq_refl). destruct l; cbn [limit_or]; lia.
Qed.

Lemma scan_loop_length (t : Z) (g : gen candidate) :
  forall acc r,
    Z.of_nat (List.length acc) < t ->
    scan_loop t g acc = Ok r ->
    Z.of_nat (List.length r) <= t.
Proof.
  induction g as [| e | | c rest IH]; intros acc r Hacc Hrun; cbn in Hrun.
  - injection Hrun as <-. lia.
  - discriminate.
  - discriminate.
  - destruct (_read_image_info c) as [info | e |]; run_bind; try discriminate.
    revert Hrun. run_bind.
    set (result' := match info with Some i => (acc ++ [i])%list | None => acc end).
    assert (Hlen : Z.of_nat (List.length result') <= t).
    { subst result'. destruct info; [rewrite length_app; cbn |]; lia. }
    destruct (Z.geb_spec (Z.of_nat (List.length result')) t) as [Hge | Hlt].
    + intros [= <-]. exact Hlen.
    + intros Hrun. eapply IH; [| exact Hrun]. lia.
Qed.

(** A candidate for which the reader answers [None] leaves no trace. *)
Lemma scan_loop_skip (t : Z) (bad : candidate) (after : gen candidate) :
  _read_image_info bad = Ok None ->
  forall before acc,
    Z.of_nat (List.length acc) < t ->
    scan_loop t (yield_all before (Yield bad after)) acc
    = scan_loop t (yield_all before after) acc.
Proof.
  intros Hbad before. induction before as [| c before IH]; intros acc Hacc; cbn.
  - rewrite Hbad. run_bind.
    destruct (Z.geb_spec (Z.of_nat (List.length acc)) t); [lia | reflexivity].
  - destruct (_read_image_info c) as [info | e |]; run_bind; try reflexivity.
    set (result' := match info with Some i => (acc ++ [i])%list | None => acc end).
    destruct (Z.geb_spec (Z.of_nat (List.length result')) t); [reflexivity |].
    apply IH. lia.
Qed.

Lemma readable_cons_Some c cs i :
  _read_image_info c = Ok (Some i) -> readable (c :: cs) = i :: readable cs.
Proof. intros H. unfold readable, read_ok. cbn. rewrite H. reflexivity. Qed.

Lemma readable_cons_None c cs :
  _read_image_info c = Ok None -> readable (c :: cs) = readable cs.
Proof. intros H. unfold readable, read_ok. cbn. rewrite H. reflexivity. Qed.

(** When the walk ends normally and no read raises, the loop returns the
    accepted records up to the limit. *)
Lemma scan_loop_all (t : Z) :
  forall cs acc,
    Z.of_nat (List.length acc) < t ->
    Forall (fun c => exists o, _read_image_info c = Ok o) cs ->
    scan_loop t (yield_all cs Stop) acc
    = Ok (take (Z.to_nat t) (acc ++ readable cs)).
Proof.
  induction cs as [| c cs IH]; intros acc Hacc Hall; cbn [yield_all scan_loop].
  - unfold readable. cbn [omap]. rewrite app_nil_r, take_ge by lia. reflexivity.
  - inversion Hall as [| ? ? [o Ho] Hall']; subst.
    rewrite Ho. run_bind. destruct o as [i |].
    + rewrite (readable_cons_Some _ _ _ Ho).
      destruct (Z.geb_spec (Z.of_nat (List.length (acc ++ [i]))) t) as [Hge | Hlt].
      * rewrite length_app in Hge. cbn in Hge.
        replace (acc ++ i :: readable cs)%list with ((acc ++ [i]) ++ readable cs)%list
          by (rewrite <- app_assoc; reflexivity).
        rewrite take_app_length'; [reflexivity |].
        rewrite length_app. cbn. lia.
      * rewrite IH; [| lia | assumption].
        rewrite <- app_assoc. reflexivity.
    + rewrite (readable_cons_None _ _ Ho).
      destruct (Z.geb_spec (Z.of_nat (List.length acc)) t); [lia |].
      apply IH; assumption.
Qed.

(* ===================================================================== *)
(** ** Trees: sizes *)
(* ===================================================================== *)

Lemma node_size_pos (n : node) : (1 <= node_size n)%nat.
Proof. destruct n as [| | | [t |] |]; cbn; lia. Qed.

Lemma node_size_Directory entries :
  node_size (Directory entries) = S (entries_size entries).
Proof.
  cbn. f_equal. unfold entries_size.
  induction entries as [| [entry_name c] l IH]; cbn; [reflexivity | now rewrite IH].
Qed.

Lemma follow_size (n : node) : forall m, follow n = Some m -> (node_size m <= node_size n)%nat.
Proof.
  induction n using node_tree_ind; cbn; intros m Hm; try (injection Hm as <-; reflexivity).
  - specialize (IHn m Hm). lia.
  - discriminate.
Qed.

Lemma scandir_size (n : node) entries :
  scandir n = Ok entries -> (entries_size entries < node_size n)%nat.
Proof.
  unfold scandir. destruct (follow n) as [m |] eqn:Hf; [| discriminate].
  apply follow_size in Hf.
  destruct m; try discriminate. intros [= ->].
  rewrite node_size_Directory in Hf. lia.
Qed.

Lemma scandir_never_starves (n : node) : scandir n <> OutOfFuel.
Proof.
  unfold scandir. destruct (follow n) as [[] |]; discriminate.
Qed.

(* ===================================================================== *)
(** ** The walker: one directory, termination, fuel *)
(* ===================================================================== *)

Lemma stack_size_cons p n stack :
  stack_size ((p, n) :: stack) = (node_size n + stack_size stack)%nat.
Proof. reflexivity. Qed.

Lemma entries_size_cons entry_name n entries :
  entries_size ((entry_name, n) :: entries) = (node_size n + entries_size entries)%nat.
Proof. reflexivity. Qed.

Lemma visit_size cur r stack out entry :
  (stack_size (fst (visit cur r (stack, out) entry))
   <= stack_size stack + node_size (snd entry))%nat.
Proof.
  destruct entry as [entry_name n]. unfold visit. cbn [snd].
  destruct (is_symlink n); [cbn [fst]; lia |].
  destruct (is_dir n && r); [cbn [fst]; rewrite stack_size_cons; lia |].
  destruct n; cbn [fst]; try lia.
  destruct (is_supported entry_name); cbn [fst]; lia.
Qed.

Lemma fold_visit_size cur r entries :
  forall st,
    (stack_size (fst (fold_left (visit cur r) entries st))
     <= stack_size (fst st) + entries_size entries)%nat.
Proof.
  induction entries as [| [entry_name n] entries IH]; intros [stack out]; cbn [fold_left].
  - cbn. lia.
  - etransitivity; [apply IH |].
    rewrite entries_size_cons.
    pose proof (visit_size cur r stack out (entry_name, n)) as H. cbn [snd] in H.
    cbn [fst]. lia.
Qed.

Lemma finishes_yield_all {A} (l : list A) (g : gen A) :
  finishes (yield_all l g) = finishes g.
Proof. induction l; cbn; auto. Qed.

Lemma gen_items_yield_all {A} (l : list A) (g : gen A) :
  gen_items (yield_all l g) = (l ++ gen_items g)%list.
Proof. induction l; cbn; [reflexivity | now f_equal]. Qed.

Lemma gen_raises_yield_all {A} (l : list A) (g : gen A) :
  gen_raises (yield_all l g) = gen_raises g.
Proof. induction l; cbn; auto. Qed.

(** Fuel beyond the size of the stack is enough: the walker terminates. *)
Lemma walk_finishes (r : bool) :
  forall fuel stack,
    (stack_size stack < fuel)%nat -> finishes (walk fuel r stack) = true.
Proof.
  induction fuel as [| fuel IH]; intros stack Hfuel; [lia |].
  cbn [walk]. destruct stack as [| [cur n] stack]; [reflexivity |].
  rewrite stack_size_cons in Hfuel.
  pose proof (node_size_pos n) as Hpos.
  destruct (scandir n) as [entries | e |] eqn:Hscan.
  - destruct (fold_left (visit cur r) entries (stack, [])) as [stack2 out] eqn:Hfold.
    rewrite finishes_yield_all. apply IH.
    pose proof (fold_visit_size cur r entries (stack, [])) as Hsz.
    rewrite Hfold in Hsz. cbn [fst] in Hsz.
    apply scandir_size in Hscan. lia.
  - destruct (is_PermissionError e); [apply IH; lia | reflexivity].
  - now apply scandir_never_starves in Hscan.
Qed.

(** More fuel does not change the outcome of a walk that terminated. *)
Lemma walk_fuel (r : bool) :
  forall fuel fuel' stack,
    finishes (walk fuel r stack) = true -> (fuel <= fuel')%nat ->
    walk fuel' r stack = walk fuel r stack.
Proof.
  induction fuel as [| fuel IH]; intros fuel' stack Hfin Hle; [discriminate |].
  destruct fuel' as [| fuel']; [lia |].
  cbn [walk] in *. destruct stack as [| [cur n] stack]; [reflexivity |].
  destruct (scandir n) as [entries | e |]; [| | reflexivity].
  - destruct (fold_left (visit cur r) entries (stack, [])) as [stack2 out].
    rewrite finishes_yield_all in Hfin. f_equal. apply IH; [assumption | lia].
  - destruct (is_PermissionError e); [apply IH; [assumption | lia] | reflexivity].
Qed.

Lemma iter_supported_files_finishes root r :
  finishes (_iter_supported_files root r) = true.
Proof.
  unfold _iter_supported_files. apply walk_finishes.
  destruct root as [p n]. cbn. lia.
Qed.

Lemma iter_supported_files_fuel p n r fuel :
  finishes (walk fuel r [(p, n)]) = true ->
  _iter_supported_files (p, n) r = walk fuel r [(p, n)].
Proof.
  intros Hfin. unfold _iter_supported_files. cbn [snd].
  destruct (Nat.le_ge_cases fuel (S (node_size n))) as [Hle | Hge].
  - apply walk_fuel; assumption.
  - symmetry. apply walk_fuel; [| assumption].
    apply walk_finishes. cbn. lia.
Qed.

(** What one pass over the entries of a directory pushes and yields. *)
Lemma fold_visit_spec cur r entries :
  forall stack out stack2 out2,
    fold_left (visit cur r) entries (stack, out) = (stack2, out2) ->
    (forall x, x ∈ stack2 ->
       x ∈ stack
       \/ exists entry_name c,
            x = (PurePath.joinpath cur entry_name, c) /\ (entry_name, c) ∈ entries
            /\ is_symlink c = false /\ is_dir c = true)
    /\ (forall y, y ∈ out2 ->
       y ∈ out
       \/ exists entry_name content,
            y = (PurePath.joinpath cur entry_name, content)
            /\ (entry_name, RegularFile content) ∈ entries
            /\ is_supported entry_name = true).
Proof.
  induction entries as [| [entry_name n] entries IH];
    intros stack out stack2 out2 Hfold; cbn [fold_left] in Hfold.
  - injection Hfold as <- <-. split; intros; left; assumption.
  - destruct (visit cur r (stack, out) (entry_name, n)) as [stack1 out1] eqn:Hv.
    destruct (IH _ _ _ _ Hfold) as [Hs Ho]. clear IH Hfold.
    assert (Hstep :
      (forall x, x ∈ stack1 ->
         x ∈ stack \/ (x = (PurePath.joinpath cur entry_name, n)
                       /\ is_symlink n = false /\ is_dir n = true))
      /\ (forall y, y ∈ out1 ->
         y ∈ out \/ exists content, n = RegularFile content
                      /\ y = (PurePath.joinpath cur entry_name, content)
                      /\ is_supported entry_name = true)).
    { unfold visit in Hv.
      destruct (is_symlink n) eqn:Hl; [injection Hv as <- <-; split; intros; left; assumption |].
      destruct (is_dir n && r) eqn:Hd.
      { injection Hv as <- <-. apply andb_true_iff in Hd as [Hd _].
        split; [| intros; left; assumption].
        intros x [-> | Hx]%elem_of_cons; [right; auto | left; assumption]. }
      destruct n; try (injection Hv as <- <-; split; intros; left; assumption).
      destruct (is_supported entry_name) eqn:Hsup;
        injection Hv as <- <-; split; intros; try (left; assumption).
      match goal with H : _ ∈ (_ ++ _)%list |- _ =>
        apply elem_of_app in H as [H | ->%list_elem_of_singleton] end;
        [left; assumption | right; eauto]. }
    destruct Hstep as [Hs1 Ho1]. split.
    + intros x Hx. destruct (Hs x Hx) as [Hx1 | (nm & c & -> & Hin & Hl & Hd)].
      * destruct (Hs1 x Hx1) as [? | (-> & Hl & Hd)]; [left; assumption |].
        right. exists entry_name, n. repeat split; auto. apply elem_of_cons; auto.
      * right. exists nm, c. repeat split; auto. apply elem_of_cons; auto.
    + intros y Hy. destruct (Ho y Hy) as [Hy1 | (nm & content & -> & Hin & Hsup)].
      * destruct (Ho1 y Hy1) as [? | (content & -> & -> & Hsup)]; [left; assumption |].
        right. exists entry_name, content. repeat split; auto. apply elem_of_cons; auto.
      * right. exists nm, content. repeat split; auto. apply elem_of_cons; auto.
Qed.

Lemma files_of_entry entries entry_name c f :
  (entry_name, c) ∈ entries -> is_symlink c = false ->
  f ∈ files_of c -> f ∈ files_of (Directory entries).
Proof.
  intros Hin Hl Hf. cbn.
  induction entries as [| [nm c'] entries IH]; [inversion Hin |].
  apply elem_of_app.
  apply elem_of_cons in Hin as [[= <- <-] | Hin].
  - left. rewrite Hl. exact Hf.
  - right. apply IH, Hin.
Qed.

Lemma follow_files (n : node) : forall m, follow n = Some m -> files_of m = files_of n.
Proof.
  induction n using node_tree_ind; cbn [follow]; intros m Hm;
    try (injection Hm as <-; reflexivity).
  - cbn [files_of]. apply IHn, Hm.
  - discriminate.
Qed.

Lemma scandir_files n entries :
  scandir n = Ok entries -> files_of n = files_of (Directory entries).
Proof.
  unfold scandir. destruct (follow n) as [m |] eqn:Hf; [| discriminate].
  apply follow_files in Hf. destruct m; try discriminate.
  intros [= ->]. symmetry. exact Hf.
Qed.

(** Every candidate the walker yields is a regular file of a tree on its
    stack, reached without crossing a symbolic link. *)
Lemma walk_items_in_tree (r : bool) :
  forall fuel stack c,
    c ∈ gen_items (walk fuel r stack) ->
    exists p n, (p, n) ∈ stack /\ snd c ∈ files_of n.
Proof.
  induction fuel as [| fuel IH]; intros stack c Hc; [inversion Hc |].
  cbn [walk] in Hc. destruct stack as [| [cur n] stack]; [inversion Hc |].
  destruct (scandir n) as [entries | e |] eqn:Hscan.
  - destruct (fold_left (visit cur r) entries (stack, [])) as [stack2 out] eqn:Hfold.
    destruct (fold_visit_spec _ _ _ _ _ _ _ Hfold) as [Hs Ho].
    apply scandir_files in Hscan.
    rewrite gen_items_yield_all in Hc. apply elem_of_app in Hc as [Hc | Hc].
    + destruct (Ho c Hc) as [Hnil | (nm & content & -> & Hin & _)]; [inversion Hnil |].
      exists cur, n. split; [apply elem_of_cons; auto |].
      rewrite Hscan. eapply files_of_entry; [exact Hin | reflexivity |].
      cbn. apply list_elem_of_singleton. reflexivity.
    + destruct (IH _ _ Hc) as (p & m & Hin & Hf).
      destruct (Hs _ Hin) as [Hold | (nm & c' & [= -> ->] & Hin' & Hl & _)].
      * exists p, m. split; [apply elem_of_cons; auto | assumption].
      * exists cur, n. split; [apply elem_of_cons; auto |].
        rewrite Hscan. eapply files_of_entry; eassumption.
  - destruct (is_PermissionError e); [| inversion Hc].
    destruct (IH _ _ Hc) as (p & m & Hin & Hf).
    exists p, m. split; [apply elem_of_cons; auto | assumption].
  - inversion Hc.
Qed.

(** The walker raises only what [os.scandir] raised, and never a
    [PermissionError]. *)
Lemma walk_raises (r : bool) :
  forall fuel stack e,
    gen_raises (walk fuel r stack) = Some e -> is_PermissionError e = false.
Proof.
  induction fuel as [| fuel IH]; intros stack e He; [discriminate |].
  cbn [walk] in He. destruct stack as [| [cur n] stack]; [discriminate |].
  destruct (scandir n) as [entries | e' |].
  - destruct (fold_left (visit cur r) entries (stack, [])) as [stack2 out].
    rewrite gen_raises_yield_all in He. eapply IH, He.
  - destruct (is_PermissionError e') eqn:Hp; [eapply IH, He |].
    injection He as <-. exact Hp.
  - discriminate.
Qed.

(* ===================================================================== *)
(** ** Walking a transformed tree *)
(* ===================================================================== *)

(** A transformation of trees that may drop symbolic-link entries and
    otherwise keeps the kind of every entry leaves the walk unchanged, as
    long as it changes the answer of [os.scandir] at most from a
    [PermissionError] to an empty listing. *)

Section walk_simulation.
Variable T : node -> node.
Variable keep : node -> bool.
Hypothesis T_symlink : forall c, is_symlink (T c) = is_symlink c.
Hypothesis T_dir : forall c, is_dir (T c) = is_dir c.
Hypothesis T_other : forall c, is_symlink c = false -> is_dir c = false -> T c = c.
Hypothesis keep_spec : forall c, keep c = false -> is_symlink c = true.
Hypothesis T_scandir : forall n,
  match scandir n with
  | Ok entries => scandir (T n) = Ok (map_entries keep T entries)
  | Raise e =>
      scandir (T n) = Raise e
      \/ (is_PermissionError e = true /\ scandir (T n) = Ok [])
  | OutOfFuel => True
  end.

Lemma visit_sim cur r stack out entry_name c :
  is_symlink c = false ->
  visit cur r (map_stack T stack, out) (entry_name, T c)
  = (map_stack T (fst (visit cur r (stack, out) (entry_name, c))),
     snd (visit cur r (stack, out) (entry_name, c))).
Proof.
  intros Hl. unfold visit. rewrite T_symlink, T_dir, Hl.
  destruct (is_dir c) eqn:Hd; cbn [andb].
  - destruct r; [reflexivity |].
    destruct c; try discriminate; cbn in *.
    + destruct (T (Directory entries)) eqn:E; try reflexivity.
      pose proof (T_dir (Directory entries)) as H. rewrite E in H. discriminate.
    + destruct (T (Unreadable e)) eqn:E; try reflexivity.
      pose proof (T_dir (Unreadable e)) as H. rewrite E in H. discriminate.
  - rewrite (T_other c Hl Hd).
    destruct c; try reflexivity.
    destruct (is_supported entry_name); reflexivity.
Qed.

Lemma fold_visit_sim cur r entries :
  forall stack out,
    fold_left (visit cur r) (map_entries keep T entries) (map_stack T stack, out)
    = (map_stack T (fst (fold_left (visit cur r) entries (stack, out))),
       snd (fold_left (visit cur r) entries (stack, out))).
Proof.
  induction entries as [| [entry_name c] entries IH]; intros stack out.
  - reflexivity.
  - unfold map_entries. cbn [flat_map fold_left fst snd].
    fold (map_entries keep T entries).
    destruct (is_symlink c) eqn:Hl.
    + assert (Hskip : forall st c', is_symlink c' = true ->
                visit cur r st (entry_name, c') = st).
      { intros [s o] c' H. unfold visit. rewrite H. reflexivity. }
      rewrite (Hskip (stack, out) c Hl).
      destruct (keep c); cbn [app]; [| apply IH].
      cbn [fold_left]. rewrite Hskip by (rewrite T_symlink; exact Hl). apply IH.
    + destruct (keep c) eqn:Hk; [| apply keep_spec in Hk; congruence].
      cbn [app fold_left]. rewrite (visit_sim _ _ _ _ _ _ Hl).
      destruct (visit cur r (stack, out) (entry_name, c)) as [stack1 out1].
      apply IH.
Qed.

Lemma walk_sim (r : bool) :
  forall fuel stack, walk fuel r (map_stack T stack) = walk fuel r stack.
Proof.
  induction fuel as [| fuel IH]; intros stack; [reflexivity |].
  cbn [walk]. destruct stack as [| [cur n] stack]; [reflexivity |].
  cbn [map_stack map fst snd]. fold (map_stack T stack).
  pose proof (T_scandir n) as Hn.
  destruct (scandir n) as [entries | e |] eqn:Hscan.
  - rewrite Hn, fold_visit_sim.
    destruct (fold_left (visit cur r) entries (stack, [])) as [stack2 out].
    cbn [fst snd]. rewrite IH. reflexivity.
  - destruct Hn as [-> | [Hp ->]].
    + destruct (is_PermissionError e); [apply IH | reflexivity].
    + rewrite Hp. cbn [fold_left yield_all]. apply IH.
  - now apply scandir_never_starves in Hscan.
Qed.

Lemma iter_supported_files_sim p n r :
  _iter_supported_files (p, T n) r = _iter_supported_files (p, n) r.
Proof.
  pose proof (walk_sim r (S (node_size n)) [(p, n)]) as Hsim.
  cbn [map_stack map fst snd] in Hsim.
  rewrite (iter_supported_files_fuel p (T n) r (S (node_size n))).
  - exact Hsim.
  - rewrite Hsim. apply (iter_supported_files_finishes (p, n)).
Qed.
End walk_simulation.

Lemma is_symlink_without_symlinks c : is_symlink (without_symlinks c) = is_symlink c.
Proof. destruct c as [| | | [t |] |]; reflexivity. Qed.

Lemma is_dir_without_symlinks c : is_dir (without_symlinks c) = is_dir c.
Proof. destruct c as [| | | [t |] |]; reflexivity. Qed.

Lemma without_symlinks_Directory entries :
  without_symlinks (Directory entries)
  = Directory (map_entries (fun c => negb (is_symlink c)) without_symlinks entries).
Proof.
  cbn [without_symlinks]. f_equal.
  induction entries as [| [entry_name c] entries IH]; [reflexivity |].
  unfold map_entries. cbn [flat_map fst snd]. rewrite IH.
  destruct (is_symlink c); reflexivity.
Qed.

Lemma scandir_without_symlinks (n : node) :
  scandir (without_symlinks n)
  = match scandir n with
    | Ok entries =>
        Ok (map_entries (fun c => negb (is_symlink c)) without_symlinks entries)
    | other => other
    end.
Proof.
  unfold scandir.
  induction n using node_tree_ind; try reflexivity.
  - rewrite without_symlinks_Directory. reflexivity.
  - cbn [without_symlinks follow]. exact IHn.
Qed.

Lemma is_symlink_denied_as_empty c : is_symlink (denied_as_empty c) = is_symlink c.
Proof. destruct c as [| e | | [t |] |]; try reflexivity. cbn. destruct (is_PermissionError e); reflexivity. Qed.

Lemma is_dir_denied_as_empty c : is_dir (denied_as_empty c) = is_dir c.
Proof. destruct c as [| e | | [t |] |]; try reflexivity. cbn. destruct (is_PermissionError e); reflexivity. Qed.

Lemma denied_as_empty_Directory entries :
  denied_as_empty (Directory entries)
  = Directory (map_entries (fun _ => true) denied_as_empty entries).
Proof.
  cbn [denied_as_empty]. f_equal.
  induction entries as [| [entry_name c] entries IH]; [reflexivity |].
  unfold map_entries. cbn [flat_map fst snd]. rewrite IH. reflexivity.
Qed.

Lemma scandir_denied_as_empty (n : node) :
  match scandir n with
  | Ok entries =>
      scandir (denied_as_empty n) = Ok (map_entries (fun _ => true) denied_as_empty entries)
  | Raise e =>
      scandir (denied_as_empty n) = Raise e
      \/ (is_PermissionError e = true /\ scandir (denied_as_empty n) = Ok [])
  | OutOfFuel => True
  end.
Proof.
  unfold scandir.
  induction n using node_tree_ind; try (left; reflexivity).
  - rewrite denied_as_empty_Directory. reflexivity.
  - cbn [denied_as_empty follow].
    destruct (is_PermissionError e) eqn:Hp; [right | left]; auto.
  - cbn [denied_as_empty follow]. exact IHn.
Qed.

(* ===================================================================== *)
(** ** The reader and the loop: what comes out *)
(* ===================================================================== *)


Lemma read_image_info_Raise c e :
  _read_image_info c = Raise e -> caught_by_reader e = false.
Proof.
  destruct c as [p file]. unfold _read_image_info, try_except.
  match goal with |- match ?body with _ => _ end = _ -> _ => destruct body as [o | e' |] end;
    try discriminate.
  destruct (caught_by_reader e') eqn:Hc; [discriminate |].
  intros [= <-]. exact Hc.
Qed.

Lemma read_image_info_never_starves c : _read_image_info c <> OutOfFuel.
Proof.
  destruct c as [p file]. unfold _read_image_info, try_except.
  destruct file as [img | e]; cbn [Image_open]; run_bind.
  - destruct (Image.size img) as [w h].
    assert (Hdpi : _extract_dpi img <> OutOfFuel).
    { unfold _extract_dpi, pair_of_tag, unpack2, float_.
      repeat (match goal with
              | |- context [match ?x with _ => _ end] => destruct x
              | |- context [if ?x then _ else _] => destruct x
              end; run_bind; cbn [fst snd]; try discriminate). }
    destruct (_extract_dpi img) as [dpi | e |]; run_bind; try discriminate.
    + destruct (caught_by_reader e); discriminate.
    + congruence.
  - destruct (caught_by_reader e); discriminate.
Qed.

Lemma scan_loop_records (t : Z) (g : gen candidate) :
  forall acc result,
    scan_loop t g acc = Ok result ->
    forall i, i ∈ result ->
      i ∈ acc \/ exists c, c ∈ gen_items g /\ _read_image_info c = Ok (Some i).
Proof.
  induction g as [| e | | c rest IH]; intros acc result Hrun i Hi; cbn in Hrun;
    try discriminate.
  - injection Hrun as <-. left. exact Hi.
  - destruct (_read_image_info c) as [info | e |] eqn:Hread; revert Hrun; run_bind;
      try discriminate.
    set (result' := match info with Some j => (acc ++ [j])%list | None => acc end).
    assert (Hnew : forall j, j ∈ result' -> j ∈ acc \/ info = Some j).
    { subst result'. destruct info as [k |]; [| auto].
      intros j [Hj | ->%list_elem_of_singleton]%elem_of_app; auto. }
    cbn [gen_items].
    destruct (Z.of_nat (List.length result') >=? t).
    + intros [= <-]. destruct (Hnew i Hi) as [? | ->]; [left; assumption |].
      right. exists c. split; [apply elem_of_cons; auto | exact Hread].
    + intros Hrun. destruct (IH _ _ Hrun i Hi) as [Hi' | (c' & Hc' & Hr')].
      * destruct (Hnew i Hi') as [? | ->]; [left; assumption |].
        right. exists c. split; [apply elem_of_cons; auto | exact Hread].
      * right. exists c'. split; [apply elem_of_cons; auto | exact Hr'].
Qed.

(** The loop ends with a list, or with an exception that the walker raised
    or that a read let through. *)
Lemma scan_loop_outcome (t : Z) (g : gen candidate) :
  finishes g = true ->
  forall acc,
    (exists result, scan_loop t g acc = Ok result)
    \/ (exists e, scan_loop t g acc = Raise e
        /\ (gen_raises g = Some e
            \/ exists c, c ∈ gen_items g /\ _read_image_info c = Raise e)).
Proof.
  induction g as [| e | | c rest IH]; intros Hfin acc; cbn [scan_loop].
  - left. eauto.
  - right. exists e. auto.
  - discriminate.
  - cbn [finishes] in Hfin. cbn [gen_items gen_raises].
    destruct (_read_image_info c) as [info | e |] eqn:Hread; run_bind.
    + destruct (Z.of_nat _ >=? t); [left; eauto |].
      destruct (IH Hfin (match info with Some i => (acc ++ [i])%list | None => acc end))
        as [Hok | (e & He & [Hg | (c' & Hc' & Hr')])].
      * left. exact Hok.
      * right. exists e. auto.
      * right. exists e. split; [exact He |]. right. exists c'.
        split; [apply elem_of_cons; auto | exact Hr'].
    + right. exists e. split; [reflexivity |]. right. exists c.
      split; [apply elem_of_cons; auto | exact Hread].
    + now apply read_image_info_never_starves in Hread.
Qed.

Lemma gen_normal {A} (g : gen A) :
  finishes g = true -> gen_raises g = None -> g = yield_all (gen_items g) Stop.
Proof.
  induction g as [| e | | a rest IH]; cbn; intros Hfin Hraise; try discriminate.
  - reflexivity.
  - f_equal. apply IH; assumption.
Qed.

(* ===================================================================== *)
(** ** The checks of the root *)
(* ===================================================================== *)

Lemma resolve_root_never_starves fs directory :
  resolve_root fs directory <> OutOfFuel.
Proof.
  unfold resolve_root.
  destruct (expanduser fs directory) as [root | e]; cbn; [| discriminate].
  destruct (lookup fs root); cbn; discriminate.
Qed.

(** Once the root is resolved, the scan is the two checks and the loop. *)
Lemma scan_directory_resolved fs directory recursive limit root found :
  resolve_root fs directory = Ok (root, found) ->
  scan_directory fs directory recursive limit
  = match found with
    | None => Raise FileNotFoundError
    | Some n =>
        if negb (is_dir n) then Raise NotADirectoryError
        else scan_loop (Z.min (limit_or limit MAX_FILES) MAX_FILES)
               (_iter_supported_files (root, n) recursive) []
    end.
Proof.
  unfold resolve_root, scan_directory.
  destruct (expanduser fs directory) as [r | e]; cbn; [| discriminate].
  destruct (lookup fs r) as [o | e]; cbn; [| discriminate].
  intros [= <- <-]. reflexivity.
Qed.

Lemma scan_directory_unresolved fs directory recursive limit e :
  resolve_root fs directory = Raise e ->
  scan_directory fs directory recursive limit = Raise e.
Proof.
  unfold resolve_root, scan_directory.
  destruct (expanduser fs directory) as [r | e0]; cbn; [| congruence].
  destruct (lookup fs r) as [o | e0]; cbn; [discriminate | congruence].
Qed.

(** The root is resolved, or the scan ends with what the resolution
    raises. *)
Lemma resolve_root_cases fs directory :
  (exists root found, resolve_root fs directory = Ok (root, found))
  \/ (exists e, resolve_root fs directory = Raise e).
Proof.
  destruct (resolve_root fs directory) as [[root found] | e |] eqn:Hroot; eauto.
  now apply resolve_root_never_starves in Hroot.
Qed.

(** A scan that returns has passed both checks and run the loop. *)
Lemma scan_directory_Ok fs directory recursive limit result :
  scan_directory fs directory recursive limit = Ok result ->
  exists root n,
    resolve_root fs directory = Ok (root, Some n)
    /\ is_dir n = true
    /\ scan_loop (Z.min (limit_or limit MAX_FILES) MAX_FILES)
         (_iter_supported_files (root, n) recursive) [] = Ok result.
Proof.
  intros Hrun.
  destruct (resolve_root_cases fs directory) as [(root & found & Hroot) | (e & Hroot)].
  - rewrite (scan_directory_resolved _ _ _ _ _ _ Hroot) in Hrun.
    destruct found as [n |]; [| discriminate].
    destruct (is_dir n) eqn:Hdir; [| discriminate].
    exists root, n. auto.
  - rewrite (scan_directory_unresolved _ _ _ _ _ Hroot) in Hrun. discriminate.
Qed.

(** The records of a scan come from candidates of the walk below the root. *)
Lemma scan_records_from_walk fs directory recursive limit result i :
  scan_directory fs directory recursive limit = Ok result ->
  i ∈ result ->
  exists root n c,
    resolve_root fs directory = Ok (root, Some n)
    /\ c ∈ gen_items (_iter_supported_files (root, n) recursive)
    /\ _read_image_info c = Ok (Some i).
Proof.
  intros (root & n & Hroot & _ & Hrun)%scan_directory_Ok Hi.
  destruct (scan_loop_records _ _ _ _ Hrun i Hi) as [Hnil | (c & Hc & Hread)];
    [inversion Hnil |].
  exists root, n, c. auto.
Qed.

(** The scan of a directory is the loop over its walk. *)
Lemma scan_directory_loop fs directory recursive limit root n :
  resolve_root fs directory = Ok (root, Some n) ->
  is_dir n = true ->
  scan_directory fs directory recursive limit
  = scan_loop (Z.min (limit_or limit MAX_FILES) MAX_FILES)
      (_iter_supported_files (root, n) recursive) [].
Proof.
  intros Hroot Hdir. rewrite (scan_directory_resolved _ _ _ _ _ _ Hroot), Hdir.
  reflexivity.
Qed.

(* ===================================================================== *)
(** ** The result cap *)
(* ===================================================================== *)

(** C1 (as the code has it).  A scan that returns holds at most
    min(limit, 100000) records for every requested limit of at least 1; a
    limit of 0, like an omitted one, is read as "no limit", and the scan
    then holds at most 100000 records. *)
Theorem scan_length_bound fs directory recursive limit result :
  scan_directory fs directory recursive limit = Ok result ->
  (forall l, limit = Some l -> 1 <= l ->
     Z.of_nat (List.length result) <= Z.min l 100000)
  /\ (limit = None \/ limit = Some 0 -> Z.of_nat (List.length result) <= 100000).
Proof.
  intros (root & n & _ & _ & Hrun)%scan_directory_Ok.
  destruct (target_limit_cases limit) as (Hpos & Hzero & _).
  split.
  - intros l Hl Hge. rewrite (Hpos l Hl Hge) in Hrun.
    eapply scan_loop_length; [| exact Hrun]. cbn [List.length]. lia.
  - intros Hl. rewrite (Hzero Hl) in Hrun.
    eapply scan_loop_length; [| exact Hrun]. cbn [List.length]. lia.
Qed.

Lemma scan_length_bound_witness :
  exists result,
    scan_directory (fs_of "/r" tree_mixed) "/r" true (Some 2) = Ok result
    /\ Z.of_nat (List.length result) <= Z.min 2 100000.
Proof.
  eexists. split.
  - vm_compute. reflexivity.
  - apply (scan_length_bound (fs_of "/r" tree_mixed) "/r" true (Some 2)).
    + vm_compute. reflexivity.
    + reflexivity.
    + lia.
Defined.

(** C1 fails as stated: with a requested limit of 0 a directory holding one
    readable image gives one record, more than min(0, 100000). *)
Lemma scan_limit_zero_exceeds_minimum :
  exists result,
    scan_directory (fs_of "/r" tree_one_image) "/r" true (Some 0) = Ok result
    /\ ~ Z.of_nat (List.length result) <= Z.min 0 100000.
Proof.
  eexists. split.
  - vm_compute. reflexivity.
  - cbn. lia.
Qed.

(** A negative limit stops the loop after the first candidate: at most one
    record. *)
Lemma scan_negative_limit fs directory recursive l result :
  l < 0 ->
  scan_directory fs directory recursive (Some l) = Ok result ->
  (List.length result <= 1)%nat.
Proof.
  intros Hl (root & n & _ & _ & Hrun)%scan_directory_Ok. revert Hrun.
  assert (Ht : Z.min (limit_or (Some l) MAX_FILES) MAX_FILES < 0).
  { destruct l; cbn [limit_or]; unfold MAX_FILES; lia. }
  destruct (_iter_supported_files _ recursive) as [| e | | c rest]; cbn [scan_loop];
    try discriminate.
  - intros [= <-]. cbn. lia.
  - destruct (_read_image_info c) as [info | e |]; run_bind; try discriminate.
    destruct (Z.geb_spec (Z.of_nat (List.length
                (match info with Some i => ([] ++ [i])%list | None => [] end)))
              (Z.min (limit_or (Some l) MAX_FILES) MAX_FILES)); [| lia].
    intros [= <-]. destruct info; cbn; lia.
Qed.

(** C10.  With a limit of 0 or no limit, a scan of a directory whose walk
    and reads raise nothing returns the accepted records up to the hard cap:
    min(n, 100000) of them for n accepted candidates, hence not an empty
    list when n >= 1. *)
Theorem falsy_limit_means_hard_cap fs directory recursive limit root n :
  limit = None \/ limit = Some 0 ->
  resolve_root fs directory = Ok (root, Some n) ->
  is_dir n = true ->
  let paths := _iter_supported_files (root, n) recursive in
  gen_raises paths = None ->
  Forall (fun c => exists o, _read_image_info c = Ok o) (gen_items paths) ->
  let records := readable (gen_items paths) in
  exists result,
    scan_directory fs directory recursive limit = Ok result
    /\ result = take (Z.to_nat MAX_FILES) records
    /\ Z.of_nat (List.length result) = Z.min (Z.of_nat (List.length records)) 100000
    /\ (records <> [] -> result <> []).
Proof.
  intros Hlimit Hroot Hdir paths Hquiet Hreads records.
  rewrite (scan_directory_loop _ _ _ _ _ _ Hroot Hdir).
  destruct (target_limit_cases limit) as (_ & Hzero & _).
  rewrite (Hzero Hlimit). fold paths.
  rewrite (gen_normal paths (iter_supported_files_finishes _ _) Hquiet).
  rewrite scan_loop_all by (cbn [List.length]; first [lia | assumption]).
  cbn [app]. fold records. 
  eexists. 
  split; [reflexivity |]. 
  split; [reflexivity |]. split.
  - rewrite length_take. unfold MAX_FILES. lia.
  - destruct records; [congruence |]. unfold MAX_FILES.
    replace (Z.to_nat 100000) with (S (Z.to_nat 99999)) by lia. discriminate.
Qed.

Lemma falsy_limit_means_hard_cap_witness :
  exists result,
    scan_directory (fs_of "/r" tree_mixed) "/r" true (Some 0) = Ok result
    /\ Z.of_nat (List.length result) = 3.
Proof.
  destruct (falsy_limit_means_hard_cap (fs_of "/r" tree_mixed) "/r" true (Some 0)
              ["/r"] tree_mixed)
    as (result & Hrun & _ & Hlen & _).
  - right. reflexivity.
  - vm_compute. reflexivity.
  - reflexivity.
  - vm_compute. reflexivity.
  - set (cs := gen_items _). vm_compute in cs. subst cs.
    repeat constructor; eexists; vm_compute; reflexivity.
  - exists result. split; [exact Hrun |].
    rewrite Hlen. vm_compute. reflexivity.
Defined.

(* ===================================================================== *)
(** ** Failures of a single file *)
(* ===================================================================== *)

(** When opening a file fails with [UnidentifiedImageError] or an [OSError]
    (unrecognised or corrupt header, I/O error, permission error), the
    reader answers [None] and raises nothing; the file leaves no record and,
    for a limit that is not negative, the scan of the other files goes on as
    if the file were not there.  An exception of another class is not caught
    by the reader. *)
Lemma caught_failure_is_skipped (p : Path) (e : exn) :
  (caught_by_reader e = true ->
     _read_image_info (p, OpenRaises e) = Ok None
     /\ forall limit before after,
          (forall l, limit = Some l -> 0 <= l) ->
          let target_limit := Z.min (limit_or limit MAX_FILES) MAX_FILES in
          scan_loop target_limit (yield_all before (Yield (p, OpenRaises e) after)) []
          = scan_loop target_limit (yield_all before after) [])
  /\ (caught_by_reader e = false ->
     _read_image_info (p, OpenRaises e) = Raise e).
Proof.
  split; intros Hc.
  - assert (Hread : _read_image_info (p, OpenRaises e) = Ok None).
    { unfold _read_image_info, try_except. cbn [Image_open]. run_bind.
      rewrite Hc. reflexivity. }
    split; [exact Hread |].
    intros limit before after Hlimit target_limit.
    apply scan_loop_skip; [exact Hread |].
    destruct (target_limit_cases limit) as (_ & _ & Hpos).
    specialize (Hpos Hlimit). fold target_limit in Hpos. cbn [List.length]. lia.
  - unfold _read_image_info, try_except. cbn [Image_open]. run_bind.
    rewrite Hc. reflexivity.
Qed.

Example unreadable_file_is_skipped :
  _read_image_info (["/r"; "locked.png"], OpenRaises PermissionError) = Ok None
  /\ scan_directory (fs_of "/r" tree_unreadable_file) "/r" true None
     = scan_directory (fs_of "/r" tree_one_image) "/r" true None.
Proof. split; vm_compute; reflexivity. Qed.

(** C2 (a defect of the code).  The reader is where the failure of a single
    file is to be absorbed, but its handler names [UnidentifiedImageError]
    and [OSError] only.  An exception of another class raised while the file
    is opened (Pillow's [DecompressionBombError], for a header that declares
    too many pixels) leaves the reader, and the scan ends with it: the image
    listed after the offending file, which a scan of the directory without
    that file returns, is never read. *)
Lemma read_raises_past_reader :
  _read_image_info (["/r"; "huge.png"], OpenRaises DecompressionBombError)
  = Raise DecompressionBombError
  /\ scan_directory (fs_of "/r" tree_bomb) "/r" true None = Raise DecompressionBombError
  /\ exists i,
       scan_directory (fs_of "/r" tree_one_image) "/r" true None = Ok [i]
       /\ name i = "a.png".
Proof.
  split; [vm_compute; reflexivity |]. split; [vm_compute; reflexivity |].
  eexists. split; vm_compute; reflexivity.
Qed.

(* ===================================================================== *)
(** ** Dimensions of the records *)
(* ===================================================================== *)




(* ===================================================================== *)
(** ** Symbolic links *)
(* ===================================================================== *)

(** Two file systems whose roots yield the same candidates give the same
    scan. *)
Lemma scan_directory_same_walk fs fs' directory recursive limit root n n' :
  resolve_root fs directory = Ok (root, Some n) ->
  resolve_root fs' directory = Ok (root, Some n') ->
  is_dir n' = is_dir n ->
  _iter_supported_files (root, n') recursive
  = _iter_supported_files (root, n) recursive ->
  scan_directory fs' directory recursive limit
  = scan_directory fs directory recursive limit.
Proof.
  intros Hn Hn' Hdir Hwalk.
  rewrite (scan_directory_resolved _ _ _ _ _ _ Hn),
    (scan_directory_resolved _ _ _ _ _ _ Hn'), Hdir, Hwalk.
  reflexivity.
Qed.

(** The walk of the sample tree: the files of the root, then those of its
    directories from the last one back; the link and the directory that
    refuses enumeration give nothing. *)
Example walk_tree_mixed :
  map fst (gen_items (_iter_supported_files (["/r"], tree_mixed) true))
  = [["/r"; "a.png"]; ["/r"; "e.tiff"]; ["/r"; "broken"; "d.gif"]; ["/r"; "sub"; "b.JPG"]]
  /\ gen_raises (_iter_supported_files (["/r"], tree_mixed) true) = None.
Proof. split; vm_compute; reflexivity. Qed.

(** C6.  An entry that is a symbolic link is passed over, whatever its
    name and whatever it points to: the pass over a directory leaves the
    stack and the yielded candidates as they were; nothing a pass pushes is
    a link; every candidate of a walk is a regular file reached without
    crossing a link; and the walk of a tree, hence its scan, is that of the
    same tree without its link entries. *)
Theorem symlinks_are_ignored :
  (forall cur recursive st entry_name target,
     visit cur recursive st (entry_name, Symlink target) = st)
  /\ (forall cur recursive entries stack out x,
     x ∈ fst (fold_left (visit cur recursive) entries (stack, out)) ->
     x ∈ stack \/ is_symlink (snd x) = false)
  /\ (forall p n recursive c,
     c ∈ gen_items (_iter_supported_files (p, n) recursive) -> snd c ∈ files_of n)
  /\ (forall p n recursive,
     _iter_supported_files (p, without_symlinks n) recursive
     = _iter_supported_files (p, n) recursive)
  /\ (forall fs fs' directory recursive limit root n,
     resolve_root fs directory = Ok (root, Some n) ->
     resolve_root fs' directory = Ok (root, Some (without_symlinks n)) ->
     scan_directory fs' directory recursive limit
     = scan_directory fs directory recursive limit).
Proof.
  assert (Hwalk : forall p n recursive,
     _iter_supported_files (p, without_symlinks n) recursive
     = _iter_supported_files (p, n) recursive).
  { intros p n recursive.
    apply (iter_supported_files_sim without_symlinks (fun c => negb (is_symlink c))).
    + apply is_symlink_without_symlinks.
    + apply is_dir_without_symlinks.
    + intros c Hl Hd. destruct c as [| | | [t |] |]; try discriminate; reflexivity.
    + intros c Hk. apply negb_false_iff in Hk. exact Hk.
    + intros m. rewrite scandir_without_symlinks.
      destruct (scandir m) eqn:Hm; auto. }
  split; [| split; [| split; [| split]]].
  - intros cur recursive [stack out] entry_name target. reflexivity.
  - intros cur recursive entries stack out x Hx.
    destruct (fold_left (visit cur recursive) entries (stack, out)) as [stack2 out2] eqn:Hfold.
    destruct (fold_visit_spec _ _ _ _ _ _ _ Hfold) as [Hs _].
    destruct (Hs x Hx) as [? | (nm & c & -> & _ & Hl & _)]; auto.
  - intros p n recursive c Hc. unfold _iter_supported_files in Hc.
    destruct (walk_items_in_tree _ _ _ _ Hc) as (p' & n' & Hin & Hf).
    apply list_elem_of_singleton in Hin as [= -> ->]. exact Hf.
  - exact Hwalk.
  - intros fs fs' directory recursive limit root n Hn Hn'.
    eapply scan_directory_same_walk; eauto using is_dir_without_symlinks.
Qed.

(* ===================================================================== *)
(** ** The order of the walk *)
(* ===================================================================== *)

Lemma gen_app_Stop_r {A} (g : gen A) : gen_app g Stop = g.
Proof. induction g; cbn; congruence. Qed.

Lemma gen_app_assoc {A} (g1 g2 g3 : gen A) :
  gen_app (gen_app g1 g2) g3 = gen_app g1 (gen_app g2 g3).
Proof. induction g1; cbn; congruence. Qed.

Lemma gen_app_yield_all {A} (l : list A) (g1 g2 : gen A) :
  gen_app (yield_all l g1) g2 = yield_all l (gen_app g1 g2).
Proof. induction l; cbn; congruence. Qed.

Lemma yield_all_app {A} (l1 l2 : list A) (g : gen A) :
  yield_all (l1 ++ l2) g = yield_all l1 (yield_all l2 g).
Proof. induction l1; cbn; congruence. Qed.

(** A pass over the entries, split into what it pushes and what it yields. *)
Lemma fold_visit_pushes_own cur r entries :
  forall stack out,
    fold_left (visit cur r) entries (stack, out)
    = (pushes cur r entries stack, (out ++ own_files cur entries)%list).
Proof.
  induction entries as [| [entry_name c] entries IH]; intros stack out.
  - cbn. rewrite app_nil_r. reflexivity.
  - cbn [fold_left]. unfold pushes, own_files. cbn [fold_left flat_map fst snd].
    fold (own_files cur entries).
    assert (Hv : visit cur r (stack, out) (entry_name, c)
                 = (if is_dir c && r
                    then (PurePath.joinpath cur entry_name, c) :: stack else stack,
                    (out ++ match c with
                            | RegularFile content =>
                                if is_supported entry_name
                                then [(PurePath.joinpath cur entry_name, content)]
                                else []
                            | _ => []
                            end)%list)).
    { unfold visit. destruct c as [| | | t |]; cbn [is_symlink is_dir andb];
        rewrite ?app_nil_r; try reflexivity.
      - destruct r; rewrite ?app_nil_r; reflexivity.
      - destruct r; rewrite ?app_nil_r; reflexivity.
      - destruct (is_supported entry_name); rewrite ?app_nil_r; reflexivity. }
    rewrite Hv, IH. unfold pushes. rewrite <- app_assoc. reflexivity.
Qed.

Lemma traverse_Directory r cur entries :
  traverse r cur (Directory entries)
  = yield_all (own_files cur entries)
      (traverse_stack r (pushes cur r entries [])).
Proof.
  cbn [traverse]. f_equal.
  change (@Stop candidate) with (traverse_stack r []).
  generalize (@nil (Path * node)) as stack.
  induction entries as [| [entry_name c] entries IH]; intros stack; [reflexivity |].
  unfold pushes. cbn [fold_left fst snd]. fold (pushes cur r entries).
  destruct (is_dir c && r); [| exact (IH stack)].
  exact (IH ((PurePath.joinpath cur entry_name, c) :: stack)).
Qed.

Lemma traverse_stack_pushes r cur entries :
  forall stack,
    traverse_stack r (pushes cur r entries stack)
    = gen_app (traverse_stack r (pushes cur r entries [])) (traverse_stack r stack).
Proof.
  assert (Hgen : forall stack0 stack,
            traverse_stack r (pushes cur r entries (stack0 ++ stack))
            = gen_app (traverse_stack r (pushes cur r entries stack0))
                (traverse_stack r stack)).
  { induction entries as [| [entry_name c] entries IH]; intros stack0 stack.
    - unfold pushes. cbn [fold_left]. unfold traverse_stack.
      rewrite foldr_app.
      induction stack0 as [| x stack0 IH0]; cbn [fold_right]; [reflexivity |].
      rewrite gen_app_assoc. f_equal. exact IH0.
    - unfold pushes. cbn [fold_left fst snd]. fold (pushes cur r entries).
      destruct (is_dir c && r); [| apply IH].
      rewrite app_comm_cons. apply IH. }
  intros stack. exact (Hgen [] stack).
Qed.

Lemma traverse_follow r cur (n : node) :
  traverse r cur n
  = match follow n with
    | Some m => traverse r cur m
    | None => Throw FileNotFoundError
    end.
Proof.
  induction n using node_tree_ind; try reflexivity.
  cbn [traverse follow]. exact IHn.
Qed.

Lemma follow_not_symlink (n : node) : forall m, follow n = Some m -> is_symlink m = false.
Proof.
  induction n using node_tree_ind; cbn [follow]; intros m Hm;
    try (injection Hm as <-; reflexivity).
  - apply IHn, Hm.
  - discriminate.
Qed.

(** The loop with its stack does what the recursive description says. *)
Lemma walk_traverse (r : bool) :
  forall fuel stack,
    (stack_size stack < fuel)%nat ->
    walk fuel r stack = traverse_stack r stack.
Proof.
  induction fuel as [| fuel IH]; intros stack Hfuel; [lia |].
  cbn [walk]. destruct stack as [| [cur n] stack]; [reflexivity |].
  rewrite stack_size_cons in Hfuel.
  pose proof (node_size_pos n) as Hpos.
  cbn [traverse_stack fold_right fst snd]. fold (traverse_stack r stack).
  rewrite (traverse_follow r cur n).
  destruct (scandir n) as [entries | e |] eqn:Hscan.
  - pose proof (scandir_size _ _ Hscan) as Hsz.
    unfold scandir in Hscan.
    destruct (follow n) as [[] |]; try discriminate. injection Hscan as ->.
    rewrite fold_visit_pushes_own. cbn [app].
    rewrite traverse_Directory, gen_app_yield_all. f_equal.
    rewrite IH.
    + apply traverse_stack_pushes.
    + pose proof (fold_visit_size cur r entries (stack, [])) as H.
      rewrite fold_visit_pushes_own in H. cbn [fst] in H. lia.
  - unfold scandir in Hscan.
    destruct (follow n) as [[entries | e' | content | t |] |] eqn:Hf;
      try discriminate;
      try (apply follow_not_symlink in Hf; discriminate);
      injection Hscan as <-; cbn [traverse is_PermissionError gen_app];
      try reflexivity.
    destruct (is_PermissionError e'); cbn [gen_app]; [apply IH; lia | reflexivity].
  - now apply scandir_never_starves in Hscan.
Qed.

Lemma traverse_stack_single r p n : traverse_stack r [(p, n)] = traverse r p n.
Proof. cbn. apply gen_app_Stop_r. Qed.

Lemma pushes_not_recursive cur entries stack : pushes cur false entries stack = stack.
Proof.
  unfold pushes. induction entries as [| e entries IH]; cbn [fold_left]; [reflexivity |].
  rewrite andb_false_r. exact IH.
Qed.

(** X1.  The walk with its explicit stack is a depth-first traversal: it
    yields the candidates of a directory in listing order, then walks the
    subdirectories from the last entry back to the first, each one with
    everything below it before the next; it ends at the first enumeration
    that fails with anything but [PermissionError]. *)
Theorem walk_is_depth_first (p : Path) (n : node) (recursive : bool) :
  _iter_supported_files (p, n) recursive = traverse recursive p n
  /\ forall entries,
       traverse recursive p (Directory entries)
       = yield_all (own_files p entries)
           (traverse_stack recursive (pushes p recursive entries [])).
Proof.
  split.
  - unfold _iter_supported_files. cbn [snd].
    rewrite walk_traverse by (cbn; lia).
    apply traverse_stack_single.
  - intros entries. apply traverse_Directory.
Qed.

(** X2.  Without recursion the walk of a directory yields its own
    candidates in listing order and returns: no subdirectory is enumerated,
    whatever it holds and whatever its enumeration would raise. *)
Theorem walk_without_recursion (p : Path) (entries : list (string * node)) :
  _iter_supported_files (p, Directory entries) false
  = yield_all (own_files p entries) Stop.
Proof.
  unfold _iter_supported_files. cbn [snd].
  rewrite walk_traverse by (cbn; lia).
  rewrite traverse_stack_single, traverse_Directory, pushes_not_recursive.
  reflexivity.
Qed.

(** X3.  A root directory that exists and refuses its own enumeration with
    [PermissionError] is no error: the scan returns an empty list, for
    every limit. *)
Theorem scan_of_denied_root fs directory recursive limit root :
  resolve_root fs directory = Ok (root, Some (Unreadable PermissionError)) ->
  scan_directory fs directory recursive limit = Ok [].
Proof.
  intros Hroot. rewrite (scan_directory_resolved _ _ _ _ _ _ Hroot). cbn [is_dir negb].
  unfold _iter_supported_files. cbn [snd node_size walk scandir follow is_PermissionError].
  reflexivity.
Qed.

Lemma scan_of_denied_root_witness :
  scan_directory (fs_of "/r" (Unreadable PermissionError)) "/r" true (Some 5) = Ok [].
Proof.
  apply (scan_of_denied_root (fs_of "/r" (Unreadable PermissionError)) "/r" true (Some 5)
           ["/r"]).
  reflexivity.
Defined.

(* ===================================================================== *)
(** ** Every reachable file, once *)
(* ===================================================================== *)

Lemma traverse_stack_finishes r stack : finishes (traverse_stack r stack) = true.
Proof.
  rewrite <- (walk_traverse r (S (stack_size stack))) by lia.
  apply walk_finishes. lia.
Qed.

Lemma traverse_finishes r p n : finishes (traverse r p n) = true.
Proof. rewrite <- traverse_stack_single. apply traverse_stack_finishes. Qed.

Lemma gen_app_quiet {A} (g1 g2 : gen A) :
  finishes g1 = true -> gen_raises (gen_app g1 g2) = None ->
  gen_raises g1 = None /\ gen_raises g2 = None.
Proof.
  induction g1 as [| e | | a rest IH]; cbn; intros Hfin Hq; try discriminate; auto.
Qed.

Lemma gen_items_app {A} (g1 g2 : gen A) :
  finishes g1 = true -> gen_raises g1 = None ->
  gen_items (gen_app g1 g2) = (gen_items g1 ++ gen_items g2)%list.
Proof.
  induction g1 as [| e | | a rest IH]; cbn; intros Hfin Hq; try discriminate.
  - reflexivity.
  - f_equal. apply IH; assumption.
Qed.

Lemma pushes_dir_entries cur r entries :
  forall stack, pushes cur r entries stack = (rev (dir_entries cur r entries) ++ stack)%list.
Proof.
  unfold pushes, dir_entries.
  induction entries as [| e entries IH]; intros stack; cbn [fold_left flat_map];
    [reflexivity |].
  rewrite IH. destruct (is_dir e.2 && r); cbn [app rev]; [| reflexivity].
  rewrite <- app_assoc. reflexivity.
Qed.

Lemma reachable_files_Directory r cur entries :
  reachable_files r cur (Directory entries)
  = flat_map
      (fun e =>
         if is_dir (snd e) && r
         then reachable_files r (PurePath.joinpath cur (fst e)) (snd e)
         else match snd e with
              | RegularFile content =>
                  if is_supported (fst e)
                  then [(PurePath.joinpath cur (fst e), content)]
                  else []
              | _ => []
              end)
      entries.
Proof.
  cbn [reachable_files].
  induction entries as [| [entry_name c] entries IH]; [reflexivity |].
  cbn [flat_map fst snd]. rewrite IH. reflexivity.
Qed.

Lemma reachable_files_split r cur entries :
  reachable_files r cur (Directory entries)
  ≡ₚ (own_files cur entries
      ++ flat_map (fun x => reachable_files r (fst x) (snd x))
           (dir_entries cur r entries))%list.
Proof.
  rewrite reachable_files_Directory. unfold own_files, dir_entries.
  induction entries as [| [entry_name c] entries IH]; [reflexivity |].
  cbn [flat_map fst snd]. rewrite IH. clear IH.
  destruct c as [sub | e | content | t |]; cbn [is_dir andb app].
  - destruct r; cbn [flat_map app fst snd]; rewrite ?app_nil_r; [| reflexivity].
    rewrite !app_assoc. apply Permutation_app_tail, Permutation_app_comm.
  - destruct r; cbn [flat_map app fst snd]; rewrite ?app_nil_r; [| reflexivity].
    rewrite !app_assoc. apply Permutation_app_tail, Permutation_app_comm.
  - rewrite <- app_assoc. reflexivity.
  - reflexivity.
  - reflexivity.
Qed.

Lemma traverse_stack_items r stack :
  Forall (fun x => forall p, gen_raises (traverse r p (snd x)) = None ->
                     gen_items (traverse r p (snd x)) ≡ₚ reachable_files r p (snd x))
    stack ->
  gen_raises (traverse_stack r stack) = None ->
  gen_items (traverse_stack r stack)
  ≡ₚ flat_map (fun x => reachable_files r (fst x) (snd x)) stack.
Proof.
  induction stack as [| [p n] stack IH]; intros Hall Hq; [reflexivity |].
  cbn [traverse_stack fold_right fst snd flat_map] in *.
  fold (traverse_stack r stack) in *.
  apply Forall_cons in Hall as [Hn Hall].
  apply gen_app_quiet in Hq as [Hq1 Hq2]; [| apply traverse_finishes].
  rewrite gen_items_app by (auto using traverse_finishes).
  cbn [snd] in Hn. rewrite (Hn p Hq1), (IH Hall Hq2). reflexivity.
Qed.

Lemma traverse_items r (n : node) :
  forall p, gen_raises (traverse r p n) = None ->
            gen_items (traverse r p n) ≡ₚ reachable_files r p n.
Proof.
  induction n as [entries IH | e | content | t IH | |] using node_tree_ind; intros p Hq.
  - rewrite traverse_Directory in *.
    rewrite gen_raises_yield_all in Hq. rewrite gen_items_yield_all.
    rewrite pushes_dir_entries, app_nil_r in *.
    rewrite reachable_files_split. apply Permutation_app_head.
    rewrite traverse_stack_items; [| | exact Hq].
    + apply Permutation_flat_map. symmetry. apply Permutation_rev.
    + apply Forall_rev. unfold dir_entries.
      clear Hq. induction IH as [| [entry_name c] l Hc _ IHl]; [constructor |].
      cbn [flat_map fst snd]. destruct (is_dir c && r); [| exact IHl].
      constructor; [exact Hc | exact IHl].
  - cbn in *. destruct (is_PermissionError e); [reflexivity | discriminate].
  - discriminate.
  - cbn [traverse reachable_files] in *. apply IH, Hq.
  - discriminate.
  - discriminate.
Qed.

(** X4.  A walk that ends without an exception yields every supported
    regular file that can be reached from the root without crossing a
    symbolic-link entry or entering a directory that refuses enumeration,
    and yields each of them once. *)
Theorem walk_yields_each_file_once (p : Path) (n : node) (recursive : bool) :
  gen_raises (_iter_supported_files (p, n) recursive) = None ->
  gen_items (_iter_supported_files (p, n) recursive)
  ≡ₚ reachable_files recursive p n.
Proof.
  assert (Heq : _iter_supported_files (p, n) recursive = traverse recursive p n).
  { unfold _iter_supported_files. cbn [snd].
    rewrite walk_traverse by (cbn; lia). apply traverse_stack_single. }
  rewrite Heq. apply traverse_items.
Qed.

Lemma walk_yields_each_file_once_witness :
  gen_items (_iter_supported_files (["/r"], tree_mixed) true)
  ≡ₚ reachable_files true ["/r"] tree_mixed.
Proof.
  apply (walk_yields_each_file_once ["/r"] tree_mixed true).
  vm_compute. reflexivity.
Defined.

(* ===================================================================== *)
(** ** Directories that refuse enumeration *)
(* ===================================================================== *)

Lemma iter_supported_files_traverse p n r :
  _iter_supported_files (p, n) r = traverse r p n.
Proof.
  unfold _iter_supported_files. cbn [snd].
  rewrite walk_traverse by (cbn; lia). apply traverse_stack_single.
Qed.

Lemma gen_app_raises_None {A} (g1 g2 : gen A) :
  gen_raises g1 = None -> gen_raises g2 = None -> gen_raises (gen_app g1 g2) = None.
Proof. induction g1; cbn; auto; discriminate. Qed.

Lemma denials_only_Directory r entries :
  denials_only r (Directory entries)
  = forallb (fun e => if is_dir (snd e) && r then denials_only r (snd e) else true)
      entries.
Proof.
  cbn [denials_only].
  induction entries as [| [entry_name c] entries IH]; [reflexivity |].
  cbn [forallb fst snd]. rewrite IH. reflexivity.
Qed.

Lemma traverse_stack_quiet r stack :
  Forall (fun x => forall p, gen_raises (traverse r p (snd x)) = None) stack ->
  gen_raises (traverse_stack r stack) = None.
Proof.
  induction 1 as [| [p n] stack Hn _ IH]; [reflexivity |].
  cbn [traverse_stack fold_right fst snd]. fold (traverse_stack r stack).
  apply gen_app_raises_None; [apply Hn | exact IH].
Qed.

(** In a tree where the directories list or refuse with [PermissionError],
    the traversal raises nothing. *)
Lemma traverse_quiet r (n : node) :
  denials_only r n = true -> forall p, gen_raises (traverse r p n) = None.
Proof.
  induction n as [entries IH | e | content | t IH | |] using node_tree_ind;
    intros Hq p; try discriminate.
  - rewrite traverse_Directory, gen_raises_yield_all, pushes_dir_entries, app_nil_r.
    apply traverse_stack_quiet, Forall_rev. unfold dir_entries.
    rewrite denials_only_Directory in Hq.
    induction IH as [| [entry_name c] l Hc _ IHl]; [constructor |].
    cbn [flat_map forallb fst snd] in *.
    apply andb_true_iff in Hq as [Hc' Hl].
    destruct (is_dir c && r); cbn [app]; [| exact (IHl Hl)].
    constructor; [exact (Hc Hc') | exact (IHl Hl)].
  - cbn in *. rewrite Hq. reflexivity.
  - cbn [traverse denials_only] in *. apply IH, Hq.
Qed.

(** The walk of such a tree raises nothing and yields every supported file
    that lies outside the refusing directories and behind no link. *)
Lemma walk_of_quiet_tree p n r :
  denials_only r n = true ->
  gen_raises (_iter_supported_files (p, n) r) = None
  /\ gen_items (_iter_supported_files (p, n) r) ≡ₚ reachable_files r p n.
Proof.
  intros Hq. rewrite iter_supported_files_traverse.
  pose proof (traverse_quiet r n Hq p) as Hg.
  split; [exact Hg | apply traverse_items, Hg].
Qed.

(** A supported file in a subdirectory of the root is among the reachable
    ones. *)
Lemma reachable_in_subdirectory p entries sub_name sub file_name content :
  (sub_name, Directory sub) ∈ entries ->
  (file_name, RegularFile content) ∈ sub ->
  is_supported file_name = true ->
  (PurePath.joinpath (PurePath.joinpath p sub_name) file_name, content)
  ∈ reachable_files true p (Directory entries).
Proof.
  intros Hsub Hfile Hsup.
  rewrite reachable_files_Directory.
  apply list_elem_of_In, in_flat_map.
  exists (sub_name, Directory sub). split; [apply list_elem_of_In, Hsub |].
  cbn [fst snd is_dir andb]. rewrite reachable_files_Directory.
  apply in_flat_map.
  exists (file_name, RegularFile content). split; [apply list_elem_of_In, Hfile |].
  cbn [fst snd is_dir andb]. rewrite Hsup. left. reflexivity.
Qed.

Lemma length_readable (cs : list candidate) :
  (List.length (readable cs) <= List.length cs)%nat.
Proof.
  unfold readable. induction cs as [| c cs IH]; [reflexivity |].
  change (omap read_ok (c :: cs))
    with (match read_ok c with Some i => i :: omap read_ok cs | None => omap read_ok cs end).
  destruct (read_ok c); cbn [List.length]; lia.
Qed.

(** The scan of such a tree, when the candidates are no more than the limit
    and each is read to a record or to a skip, returns the records of all
    the accepted ones. *)
Lemma scan_of_quiet_tree_records fs directory recursive limit root n :
  resolve_root fs directory = Ok (root, Some n) ->
  is_dir n = true ->
  denials_only recursive n = true ->
  let files := reachable_files recursive root n in
  Forall (fun c => exists o, _read_image_info c = Ok o) files ->
  0 < Z.min (limit_or limit MAX_FILES) MAX_FILES ->
  Z.of_nat (List.length files) <= Z.min (limit_or limit MAX_FILES) MAX_FILES ->
  scan_directory fs directory recursive limit
  = Ok (readable (gen_items (_iter_supported_files (root, n) recursive))).
Proof.
  intros Hroot Hdir Hquiet files Hreads Hpos Hlen.
  destruct (walk_of_quiet_tree root n recursive Hquiet) as [Hg Hitems].
  rewrite (scan_directory_loop _ _ _ _ _ _ Hroot Hdir).
  set (paths := _iter_supported_files (root, n) recursive) in *.
  rewrite (gen_normal paths (iter_supported_files_finishes _ _) Hg) at 1.
  rewrite scan_loop_all.
  - cbn [app]. rewrite take_ge; [reflexivity |].
    pose proof (length_readable (gen_items paths)) as Hr.
    pose proof (Permutation_length Hitems) as Hp. fold files in Hp. lia.
  - cbn [List.length]. lia.
  - rewrite Forall_forall in *. intros c Hc. apply Hreads.
    unfold files. rewrite <- Hitems. exact Hc.
Qed.

(** C7.  A directory whose enumeration raises [PermissionError] is passed
    over and the walk goes on.  The loop continues with the rest of the
    stack; the walk never ends with a [PermissionError]; the walk of a tree,
    hence its scan, is that of the same tree with every such directory
    empty.  When refusals with [PermissionError] are the only failures of
    enumeration in the tree, the walk raises nothing and yields every
    supported file outside the refused directories, each once; in
    particular a supported file in a directory beside a refused one is
    yielded; and the scan, when the candidates are no more than the limit
    and none makes the reader raise, returns the record of every candidate
    that the reader accepts. *)
Theorem permission_denied_is_skipped :
  (forall fuel recursive cur stack,
     walk (S fuel) recursive ((cur, Unreadable PermissionError) :: stack)
     = walk fuel recursive stack)
  /\ (forall p n recursive e,
     gen_raises (_iter_supported_files (p, n) recursive) = Some e ->
     is_PermissionError e = false)
  /\ (forall p n recursive,
     _iter_supported_files (p, denied_as_empty n) recursive
     = _iter_supported_files (p, n) recursive)
  /\ (forall fs fs' directory recursive limit root n,
     resolve_root fs directory = Ok (root, Some n) ->
     resolve_root fs' directory = Ok (root, Some (denied_as_empty n)) ->
     scan_directory fs' directory recursive limit
     = scan_directory fs directory recursive limit)
  /\ (forall p n recursive,
     denials_only recursive n = true ->
     gen_raises (_iter_supported_files (p, n) recursive) = None
     /\ gen_items (_iter_supported_files (p, n) recursive)
        ≡ₚ reachable_files recursive p n)
  /\ (forall p entries denied sub_name sub file_name content,
     (denied, Unreadable PermissionError) ∈ entries ->
     (sub_name, Directory sub) ∈ entries ->
     (file_name, RegularFile content) ∈ sub ->
     is_supported file_name = true ->
     denials_only true (Directory entries) = true ->
     (PurePath.joinpath (PurePath.joinpath p sub_name) file_name, content)
     ∈ gen_items (_iter_supported_files (p, Directory entries) true))
  /\ (forall fs directory recursive limit root n c i,
     resolve_root fs directory = Ok (root, Some n) ->
     is_dir n = true ->
     denials_only recursive n = true ->
     let files := reachable_files recursive root n in
     Forall (fun c => exists o, _read_image_info c = Ok o) files ->
     Z.of_nat (List.length files) <= Z.min (limit_or limit MAX_FILES) MAX_FILES ->
     c ∈ files ->
     _read_image_info c = Ok (Some i) ->
     exists result,
       scan_directory fs directory recursive limit = Ok result /\ i ∈ result).
Proof.
  assert (Hwalk : forall p n recursive,
     _iter_supported_files (p, denied_as_empty n) recursive
     = _iter_supported_files (p, n) recursive).
  { intros p n recursive.
    apply (iter_supported_files_sim denied_as_empty (fun _ => true)).
    + apply is_symlink_denied_as_empty.
    + apply is_dir_denied_as_empty.
    + intros c Hl Hd. destruct c as [| | | [t |] |]; try discriminate; reflexivity.
    + discriminate.
    + apply scandir_denied_as_empty. }
  split; [| split; [| split; [| split; [| split; [| split]]]]].
  - reflexivity.
  - intros p n recursive e He. eapply walk_raises, He.
  - exact Hwalk.
  - intros fs fs' directory recursive limit root n Hn Hn'.
    eapply scan_directory_same_walk; eauto using is_dir_denied_as_empty.
  - intros p n recursive. apply walk_of_quiet_tree.
  - intros p entries denied sub_name sub file_name content _ Hsub Hfile Hsup Hq.
    destruct (walk_of_quiet_tree p (Directory entries) true Hq) as [_ Hitems].
    rewrite Hitems. eapply reachable_in_subdirectory; eassumption.
  - intros fs directory recursive limit root n c i Hroot Hdir Hq files Hreads Hlen Hc Hread.
    assert (Hpos : 0 < Z.min (limit_or limit MAX_FILES) MAX_FILES).
    { destruct files; [inversion Hc | cbn [List.length] in Hlen; lia]. }
    eexists. split.
    + apply (scan_of_quiet_tree_records _ _ _ _ _ _ Hroot Hdir Hq Hreads Hpos Hlen).
    + destruct (walk_of_quiet_tree root n recursive Hq) as [_ Hitems].
      apply list_elem_of_omap. exists c. split.
      * rewrite Hitems. exact Hc.
      * unfold read_ok. rewrite Hread. reflexivity.
Qed.

Lemma permission_denied_is_skipped_witness :
  (["/r"; "sub"; "b.JPG"], Opened img_jfif_cm)
  ∈ gen_items (_iter_supported_files (["/r"], tree_mixed) true)
  /\ exists result i,
       scan_directory (fs_of "/r" tree_mixed) "/r" true None = Ok result
       /\ i ∈ result /\ name i = "b.JPG".
Proof.
  destruct permission_denied_is_skipped as (_ & _ & _ & _ & _ & Hsibling & Hscan).
  split.
  - apply (Hsibling ["/r"] _ "denied" "sub"
             [("b.JPG", RegularFile (Opened img_jfif_cm));
              ("notes.txt", RegularFile (OpenRaises UnidentifiedImageError))]
             "b.JPG" (Opened img_jfif_cm)).
    + unfold tree_mixed. rewrite !elem_of_cons. tauto.
    + rewrite !elem_of_cons. tauto.
    + rewrite !elem_of_cons. tauto.
    + vm_compute. reflexivity.
    + vm_compute. reflexivity.
  - destruct (Hscan (fs_of "/r" tree_mixed) "/r" true None ["/r"] tree_mixed
                (["/r"; "sub"; "b.JPG"], Opened img_jfif_cm)
                (mkImageInfo ["/r"; "sub"; "b.JPG"] "b.JPG" "JPEG" 800 600
                   (Some (96 * cm_per_inch)%float) (Some (96 * cm_per_inch)%float)
                   "24 бит (RGB)" "JPEG (lossy)"))
      as (result & Hrun & Hi).
    + reflexivity.
    + reflexivity.
    + vm_compute. reflexivity.
    + set (cs := reachable_files _ _ _). vm_compute in cs. subst cs.
      repeat constructor; eexists; vm_compute; reflexivity.
    + set (cs := reachable_files _ _ _). vm_compute in cs. subst cs.
      cbn [List.length limit_or]. unfold MAX_FILES. lia.
    + set (cs := reachable_files _ _ _). vm_compute in cs. subst cs.
      rewrite !elem_of_cons. tauto.
    + vm_compute. reflexivity.
    + exists result. eexists. split; [exact Hrun |]. split; [exact Hi | reflexivity].
Defined.

(* ===================================================================== *)
(** ** Conditions that end the whole scan *)
(* ===================================================================== *)

(** A scan never runs out of fuel: it returns or raises. *)
Lemma scan_directory_terminates fs directory recursive limit :
  scan_directory fs directory recursive limit <> OutOfFuel.
Proof.
  destruct (resolve_root_cases fs directory) as [(root & found & Hroot) | (e & Hroot)].
  - rewrite (scan_directory_resolved _ _ _ _ _ _ Hroot).
    destruct found as [n |]; [| discriminate].
    destruct (negb (is_dir n)); [discriminate |].
    match goal with |- scan_loop ?t ?g ?acc <> _ =>
      destruct (scan_loop_outcome t g (iter_supported_files_finishes _ _) acc)
        as [(r & ->) | (e & -> & _)] end; discriminate.
  - rewrite (scan_directory_unresolved _ _ _ _ _ Hroot). discriminate.
Qed.

(** A scan of a directory returns, unless an exception gets out of the walk
    (raised by [os.scandir], and not a [PermissionError]) or out of a read
    (raised there, and neither [UnidentifiedImageError] nor [OSError]). *)
Lemma scan_directory_outcome fs directory recursive limit root n :
  resolve_root fs directory = Ok (root, Some n) ->
  is_dir n = true ->
  let run := scan_directory fs directory recursive limit in
  let paths := _iter_supported_files (root, n) recursive in
  (exists result, run = Ok result)
  \/ (exists e, run = Raise e
      /\ ((gen_raises paths = Some e /\ is_PermissionError e = false)
          \/ (exists c, c ∈ gen_items paths
              /\ _read_image_info c = Raise e /\ caught_by_reader e = false))).
Proof.
  intros Hroot Hdir run paths. unfold run.
  rewrite (scan_directory_loop _ _ _ _ _ _ Hroot Hdir). fold paths.
  match goal with |- context [scan_loop ?t _ ?acc] =>
    destruct (scan_loop_outcome t paths (iter_supported_files_finishes _ _) acc)
      as [Hok | (e & He & [Hg | (c & Hc & Hr)])] end.
  - left. exact Hok.
  - right. exists e. split; [exact He |]. left. split; [exact Hg |].
    eapply walk_raises. exact Hg.
  - right. exists e. split; [exact He |]. right. exists c.
    repeat split; auto. eapply read_image_info_Raise, Hr.
Qed.

(** A scan of a directory in which every enumeration lists or is refused
    with [PermissionError], and every candidate is read to a record or to a
    skip, returns. *)
Lemma scan_of_quiet_tree fs directory recursive limit root n :
  resolve_root fs directory = Ok (root, Some n) ->
  is_dir n = true ->
  denials_only recursive n = true ->
  Forall (fun c => exists o, _read_image_info c = Ok o)
    (reachable_files recursive root n) ->
  exists result, scan_directory fs directory recursive limit = Ok result.
Proof.
  intros Hroot Hdir Hquiet Hreads.
  destruct (walk_of_quiet_tree root n recursive Hquiet) as [Hg Hitems].
  destruct (scan_directory_outcome fs directory recursive limit root n Hroot Hdir)
    as [Hok | (e & _ & [[Hg' _] | (c & Hc & Hr & _)])].
  - exact Hok.
  - congruence.
  - rewrite Forall_forall in Hreads.
    destruct (Hreads c) as [o Ho]; [rewrite <- Hitems; exact Hc | congruence].
Qed.

(** C4 (as the code has it).  Once the path is expanded and the root is
    looked up without an exception of their own: the scan raises the
    not-found error when the root does not exist and the not-a-directory
    error when it exists and is not a directory.  When, moreover, every
    directory that the walk enumerates lists its entries or refuses with
    [PermissionError], and every candidate is read to a record or to a skip,
    each of the two errors is raised exactly in its condition, the call
    raises nothing else, and a root that is a directory gives a result. *)
Theorem scan_fatal_conditions fs directory recursive limit root found :
  resolve_root fs directory = Ok (root, found) ->
  let run := scan_directory fs directory recursive limit in
  (found = None -> run = Raise FileNotFoundError)
  /\ (forall n, found = Some n -> is_dir n = false -> run = Raise NotADirectoryError)
  /\ ((forall n, found = Some n -> is_dir n = true ->
         denials_only recursive n = true
         /\ Forall (fun c => exists o, _read_image_info c = Ok o)
              (reachable_files recursive root n)) ->
      (run = Raise FileNotFoundError <-> found = None)
      /\ (run = Raise NotADirectoryError <-> exists n, found = Some n /\ is_dir n = false)
      /\ (forall e, run = Raise e -> e = FileNotFoundError \/ e = NotADirectoryError)
      /\ (forall n, found = Some n -> is_dir n = true -> exists result, run = Ok result)).
Proof.
  intros Hroot run.
  assert (Hmissing : found = None -> run = Raise FileNotFoundError).
  { intros H. unfold run. rewrite (scan_directory_resolved _ _ _ _ _ _ Hroot), H.
    reflexivity. }
  assert (Hnotdir : forall n, found = Some n -> is_dir n = false ->
                      run = Raise NotADirectoryError).
  { intros n H Hd. unfold run.
    rewrite (scan_directory_resolved _ _ _ _ _ _ Hroot), H, Hd. reflexivity. }
  split; [exact Hmissing |]. split; [exact Hnotdir |].
  intros Hquiet.
  assert (Hreturns : forall n, found = Some n -> is_dir n = true ->
                       exists result, run = Ok result).
  { intros n H Hd. destruct (Hquiet n H Hd) as [Hg Hreads]. subst found.
    exact (scan_of_quiet_tree fs directory recursive limit root n Hroot Hd Hg Hreads). }
  assert (Hcases : found = None
                   \/ (exists n, found = Some n /\ is_dir n = false)
                   \/ (exists n, found = Some n /\ is_dir n = true)).
  { destruct found as [n |]; [| auto]. destruct (is_dir n) eqn:Hd; eauto. }
  repeat split.
  - intros Hrun. destruct Hcases as [H | [(n & H & Hd) | (n & H & Hd)]]; [exact H | |].
    + rewrite (Hnotdir n H Hd) in Hrun. discriminate.
    + destruct (Hreturns n H Hd) as [r Hr]. congruence.
  - exact Hmissing.
  - intros Hrun. destruct Hcases as [H | [(n & H & Hd) | (n & H & Hd)]]; [| eauto |].
    + rewrite (Hmissing H) in Hrun. discriminate.
    + destruct (Hreturns n H Hd) as [r Hr]. congruence.
  - intros (n & H & Hd). exact (Hnotdir n H Hd).
  - intros e Hrun. destruct Hcases as [H | [(n & H & Hd) | (n & H & Hd)]].
    + rewrite (Hmissing H) in Hrun. left. congruence.
    + rewrite (Hnotdir n H Hd) in Hrun. right. congruence.
    + destruct (Hreturns n H Hd) as [r Hr]. congruence.
  - exact Hreturns.
Qed.

Lemma scan_fatal_conditions_witness :
  scan_directory (fs_of "/r" tree_mixed) "/elsewhere" true None = Raise FileNotFoundError
  /\ scan_directory (fs_of "/r" (RegularFile (Opened img_rgb))) "/r" true None
     = Raise NotADirectoryError
  /\ (forall e, scan_directory (fs_of "/r" tree_mixed) "/r" true None = Raise e ->
        e = FileNotFoundError \/ e = NotADirectoryError).
Proof.
  split; [| split].
  - destruct (scan_fatal_conditions (fs_of "/r" tree_mixed) "/elsewhere" true None
                ["/elsewhere"] None eq_refl)
      as (Hmissing & _).
    apply Hmissing. reflexivity.
  - destruct (scan_fatal_conditions (fs_of "/r" (RegularFile (Opened img_rgb))) "/r" true None
                ["/r"] (Some (RegularFile (Opened img_rgb))) eq_refl)
      as (_ & Hnotdir & _).
    apply (Hnotdir (RegularFile (Opened img_rgb))); reflexivity.
  - destruct (scan_fatal_conditions (fs_of "/r" tree_mixed) "/r" true None
                ["/r"] (Some tree_mixed) eq_refl)
      as (_ & _ & Honly).
    apply Honly. intros n [= <-] _. split; [vm_compute; reflexivity |].
    set (cs := reachable_files _ _ _). vm_compute in cs. subst cs.
    repeat constructor; eexists; vm_compute; reflexivity.
Defined.

(** C4 fails as stated: the call ends with an exception in other conditions
    than the two.  The expansion of "~nobody", a user without a home
    directory, raises [RuntimeError]; the existence check of a path with a
    component of 320 bytes raises [OSError] instead of answering that the
    path does not exist; and with a root that is an existing directory, the
    [OSError] that the enumeration of a subdirectory raises ends the call,
    as does the [FileNotFoundError] of a subdirectory that has gone since it
    was listed. *)
Lemma scan_aborts_outside_root_conditions :
  scan_directory (fs_strict "/r" tree_mixed) "~nobody" true None = Raise RuntimeError
  /\ scan_directory (fs_strict "/r" tree_mixed) long_name true None = Raise OSError
  /\ (resolve_root (fs_of "/r" tree_io_error) "/r" = Ok (["/r"], Some tree_io_error)
      /\ is_dir tree_io_error = true
      /\ scan_directory (fs_of "/r" tree_io_error) "/r" true None = Raise OSError)
  /\ (resolve_root (fs_of "/r" tree_vanished) "/r" = Ok (["/r"], Some tree_vanished)
      /\ is_dir tree_vanished = true
      /\ scan_directory (fs_of "/r" tree_vanished) "/r" true None
         = Raise FileNotFoundError).
Proof. repeat split; vm_compute; reflexivity. Qed.

(* ===================================================================== *)
(** ** The fields of the records *)
(* ===================================================================== *)

Lemma last_app_nonempty {A} (l1 l2 : list A) (d : A) :
  l2 <> [] -> List.last (l1 ++ l2) d = List.last l2 d.
Proof.
  intros Hl2. induction l1 as [| a l1 IH]; [reflexivity |].
  cbn [app]. rewrite <- IH. cbn.
  destruct (l1 ++ l2)%list eqn:E; [| reflexivity].
  apply app_eq_nil in E as [_ ->]. congruence.
Qed.

(** Every candidate lies below a directory of the stack and bears a
    supported extension. *)
Lemma walk_item_paths (r : bool) :
  forall fuel stack c,
    c ∈ gen_items (walk fuel r stack) ->
    exists p n rel,
      (p, n) ∈ stack /\ fst c = (p ++ rel)%list /\ rel <> []
      /\ is_supported (List.last rel "") = true.
Proof.
  induction fuel as [| fuel IH]; intros stack c Hc; [inversion Hc |].
  cbn [walk] in Hc. destruct stack as [| [cur n] stack]; [inversion Hc |].
  destruct (scandir n) as [entries | e |] eqn:Hscan.
  - destruct (fold_left (visit cur r) entries (stack, [])) as [stack2 out] eqn:Hfold.
    destruct (fold_visit_spec _ _ _ _ _ _ _ Hfold) as [Hs Ho].
    rewrite gen_items_yield_all in Hc. apply elem_of_app in Hc as [Hc | Hc].
    + destruct (Ho c Hc) as [Hnil | (nm & content & -> & _ & Hsup)]; [inversion Hnil |].
      exists cur, n, [nm]. repeat split; [apply elem_of_cons; auto | discriminate | exact Hsup].
    + destruct (IH _ _ Hc) as (p & m & rel & Hin & Hpath & Hrel & Hsup).
      destruct (Hs _ Hin) as [Hold | (nm & c' & [= -> ->] & _)].
      * exists p, m, rel. repeat split; auto. apply elem_of_cons; auto.
      * exists cur, n, (nm :: rel). repeat split.
        -- apply elem_of_cons; auto.
        -- rewrite Hpath. unfold PurePath.joinpath. rewrite <- app_assoc. reflexivity.
        -- discriminate.
        -- rewrite <- Hsup. change (nm :: rel) with ([nm] ++ rel)%list.
           rewrite last_app_nonempty by assumption. reflexivity.
  - destruct (is_PermissionError e); [| inversion Hc].
    destruct (IH _ _ Hc) as (p & m & rel & Hin & Hrest).
    exists p, m, rel. split; [apply elem_of_cons; auto | exact Hrest].
  - inversion Hc.
Qed.

Lemma read_image_info_fields p file i :
  _read_image_info (p, file) = Ok (Some i) ->
  exists img dpi,
    file = Opened img /\ _extract_dpi img = Ok dpi
    /\ path i = p /\ name i = PurePath.name p
    /\ format i
       = match Image.format img with
         | Some (String c s) => String c s
         | _ => dict_get SUPPORTED_EXTENSIONS (lower (PurePath.suffix p)) "Unknown"
         end
    /\ dpi_x i = fst dpi /\ dpi_y i = snd dpi
    /\ color_depth i = _describe_color_depth img
    /\ compression i = _detect_compression img.
Proof.
  unfold _read_image_info, try_except.
  destruct file as [img | e]; cbn [Image_open]; run_bind.
  - destruct (Image.size img) as [w h] eqn:Hsize.
    destruct (_extract_dpi img) as [dpi | e |] eqn:Hdpi; run_bind.
    + intros [= <-]. exists img, dpi. cbn. repeat split; solve [reflexivity | exact Hdpi].
    + destruct (caught_by_reader e); discriminate.
    + discriminate.
  - destruct (caught_by_reader e); discriminate.
Qed.

Lemma supported_extension_kind (ext kind : string) :
  SUPPORTED_EXTENSIONS !! ext = Some kind ->
  kind ∈ ["JPEG"; "PNG"; "BMP"; "GIF"; "TIFF"; "PCX"].
Proof.
  unfold SUPPORTED_EXTENSIONS.
  repeat (rewrite lookup_insert; case_decide;
          [ intros [= <-]; rewrite !elem_of_cons; tauto | ]).
  rewrite lookup_empty. discriminate.
Qed.

(** X5.  Every record of a scan lies strictly below the expanded root: its
    path is the root followed by at least one component, its name is the
    last of them, and that name bears one of the supported extensions. *)
Theorem record_paths_and_names fs directory recursive limit result i :
  scan_directory fs directory recursive limit = Ok result ->
  i ∈ result ->
  exists root n rel,
    resolve_root fs directory = Ok (root, Some n)
    /\ path i = (root ++ rel)%list /\ rel <> []
    /\ name i = List.last rel "" /\ is_supported (name i) = true.
Proof.
  intros Hrun Hi.
  destruct (scan_records_from_walk _ _ _ _ _ _ Hrun Hi)
    as (root & n & [p file] & Hroot & Hc & Hread).
  destruct (read_image_info_fields _ _ _ Hread) as (img & dpi & _ & _ & Hp & Hn & _).
  unfold _iter_supported_files in Hc.
  destruct (walk_item_paths _ _ _ _ Hc) as (p' & n' & rel & Hin & Hpath & Hrel & Hsup).
  apply list_elem_of_singleton in Hin as [= -> ->]. cbn [fst] in Hpath.
  assert (Hname : name i = List.last rel "").
  { rewrite Hn, Hpath. unfold PurePath.name. apply last_app_nonempty, Hrel. }
  exists root, n, rel. rewrite Hp, Hname. auto.
Qed.

Lemma record_paths_and_names_witness :
  exists i rel,
    scan_directory (fs_of "/r" tree_one_image) "/r" true None = Ok [i]
    /\ path i = (["/r"] ++ rel)%list /\ name i = List.last rel "".
Proof.
  eexists.
  assert (Hrun : scan_directory (fs_of "/r" tree_one_image) "/r" true None = Ok [_])
    by (vm_compute; reflexivity).
  destruct (record_paths_and_names _ _ _ _ _ _ Hrun
              (proj2 (list_elem_of_singleton _ _) eq_refl))
    as (root & n & rel & Hroot & Hp & _ & Hn & _).
  injection Hroot as <- <-.
  exists rel. auto.
Defined.

(** X6.  The format of every record of a scan is the non-empty format the
    decoder reported or, when it reported none, the kind that the table
    gives for the extension of the file, one of JPEG, PNG, BMP, GIF, TIFF and
    PCX: the "Unknown" default of the reader is never used in a scan. *)
Theorem record_format fs directory recursive limit result i :
  scan_directory fs directory recursive limit = Ok result ->
  i ∈ result ->
  format i <> ""
  /\ ((exists root n img, resolve_root fs directory = Ok (root, Some n)
                          /\ Opened img ∈ files_of n
                          /\ Image.format img = Some (format i))
      \/ (SUPPORTED_EXTENSIONS !! lower (PurePath.suffix (path i)) = Some (format i)
          /\ format i ∈ ["JPEG"; "PNG"; "BMP"; "GIF"; "TIFF"; "PCX"])).
Proof.
  intros Hrun Hi.
  destruct (scan_records_from_walk _ _ _ _ _ _ Hrun Hi)
    as (root & n & [p file] & Hroot & Hc & Hread).
  destruct (read_image_info_fields _ _ _ Hread) as (img & dpi & -> & _ & Hp & _ & Hf & _).
  assert (Hfile : Opened img ∈ files_of n).
  { unfold _iter_supported_files in Hc.
    destruct (walk_items_in_tree _ _ _ _ Hc) as (p' & n' & Hin & Hfile).
    apply list_elem_of_singleton in Hin as [= -> ->]. exact Hfile. }
  assert (Hext : exists kind,
             SUPPORTED_EXTENSIONS !! lower (PurePath.suffix p) = Some kind).
  { unfold _iter_supported_files in Hc.
    destruct (walk_item_paths _ _ _ _ Hc) as (p' & n' & rel & Hin & Hpath & Hrel & Hsup).
    apply list_elem_of_singleton in Hin as [= -> ->]. cbn [fst] in Hpath.
    unfold is_supported in Hsup. apply bool_decide_eq_true in Hsup as [kind Hk].
    exists kind. rewrite <- Hk. unfold PurePath.suffix, PurePath.name.
    rewrite Hpath, last_app_nonempty by assumption. reflexivity. }
  destruct Hext as [kind Hk]. rewrite Hp.
  destruct (Image.format img) as [[| c s] |] eqn:Hfmt; rewrite ?Hfmt in Hf.
  - unfold dict_get in Hf. rewrite Hk in Hf. change (format i = kind) in Hf. subst kind.
    pose proof (supported_extension_kind _ _ Hk) as Hkind.
    split; [| right; auto].
    intros Hempty. rewrite Hempty in Hkind.
    rewrite !elem_of_cons, elem_of_nil in Hkind. intuition discriminate.
  - split; [rewrite Hf; discriminate |].
    left. exists root, n, img. rewrite Hf. auto.
  - unfold dict_get in Hf. rewrite Hk in Hf. change (format i = kind) in Hf. subst kind.
    pose proof (supported_extension_kind _ _ Hk) as Hkind.
    split; [| right; auto].
    intros Hempty. rewrite Hempty in Hkind.
    rewrite !elem_of_cons, elem_of_nil in Hkind. intuition discriminate.
Qed.

Lemma record_format_witness :
  exists i,
    scan_directory (fs_of "/r" tree_one_image) "/r" true None = Ok [i]
    /\ format i <> "".
Proof.
  eexists.
  assert (Hrun : scan_directory (fs_of "/r" tree_one_image) "/r" true None = Ok [_])
    by (vm_compute; reflexivity).
  split; [exact Hrun |].
  apply (record_format _ _ _ _ _ _ Hrun (proj2 (list_elem_of_singleton _ _) eq_refl)).
Defined.

(* ===================================================================== *)
(** ** What the reader returns, skips and lets through *)
(* ===================================================================== *)

Ltac break_extract_dpi :=
  unfold _extract_dpi, pair_of_tag, unpack2, float_;
  repeat (match goal with
          | |- context [match ?x with _ => _ end] => destruct x
          | |- context [if ?x then _ else _] => destruct x
          end; run_bind; cbn [fst snd]).

Lemma extract_dpi_both_or_none img dpi :
  _extract_dpi img = Ok dpi ->
  (fst dpi = None /\ snd dpi = None)
  \/ (exists x y, fst dpi = Some x /\ snd dpi = Some y).
Proof.
  revert dpi. break_extract_dpi; intros dpi [= <-]; cbn; eauto.
Qed.

Lemma extract_dpi_raises img e :
  _extract_dpi img = Raise e ->
  e ∈ [IndexError; ValueError; TypeError; OverflowError].
Proof.
  revert e. break_extract_dpi; intros e' [= <-]; rewrite !elem_of_cons; tauto.
Qed.

(** X7.  In every record of a scan the two resolutions are known together
    or not at all: [dpi_x] is [None] exactly when [dpi_y] is. *)
Theorem record_dpi_together fs directory recursive limit result i :
  scan_directory fs directory recursive limit = Ok result ->
  i ∈ result ->
  (dpi_x i = None <-> dpi_y i = None).
Proof.
  intros Hrun Hi.
  destruct (scan_records_from_walk _ _ _ _ _ _ Hrun Hi)
    as (root & n & [p file] & _ & _ & Hread).
  destruct (read_image_info_fields _ _ _ Hread)
    as (img & dpi & _ & Hdpi & _ & _ & _ & -> & -> & _).
  destruct (extract_dpi_both_or_none _ _ Hdpi) as [[-> ->] | (x & y & -> & ->)];
    split; congruence.
Qed.

Lemma record_dpi_together_witness :
  exists i,
    scan_directory (fs_of "/r" tree_one_image) "/r" true None = Ok [i]
    /\ (dpi_x i = None <-> dpi_y i = None).
Proof.
  eexists.
  assert (Hrun : scan_directory (fs_of "/r" tree_one_image) "/r" true None = Ok [_])
    by (vm_compute; reflexivity).
  split; [exact Hrun |].
  apply (record_dpi_together _ _ _ _ _ _ Hrun (proj2 (list_elem_of_singleton _ _) eq_refl)).
Defined.

(** X8.  The reader skips a file only when opening it failed with
    [UnidentifiedImageError] or an [OSError]: a file that opens is never
    skipped, it gives a record or an exception that leaves the reader, and
    such an exception is an [IndexError], [ValueError], [TypeError] or
    [OverflowError] raised while the resolution tags are read. *)
Theorem reader_skips_only_failed_opens (p : Path) (file : open_outcome) :
  (_read_image_info (p, file) = Ok None
   <-> exists e, file = OpenRaises e /\ caught_by_reader e = true)
  /\ (forall img, file = Opened img ->
        (exists i, _read_image_info (p, file) = Ok (Some i))
        \/ (exists e, _read_image_info (p, file) = Raise e
                      /\ _extract_dpi img = Raise e
                      /\ e ∈ [IndexError; ValueError; TypeError; OverflowError])).
Proof.
  assert (Hopened : forall img,
    (exists i, _read_image_info (p, Opened img) = Ok (Some i))
    \/ (exists e, _read_image_info (p, Opened img) = Raise e
                  /\ _extract_dpi img = Raise e
                  /\ e ∈ [IndexError; ValueError; TypeError; OverflowError])).
  { intros img. unfold _read_image_info, try_except. cbn [Image_open]. run_bind.
    destruct (Image.size img) as [w h].
    destruct (_extract_dpi img) as [dpi | e |] eqn:Hdpi; run_bind.
    - left. eauto.
    - right. exists e. pose proof (extract_dpi_raises _ _ Hdpi) as He.
      assert (caught_by_reader e = false) as ->; [| auto].
      rewrite !elem_of_cons, elem_of_nil in He.
      destruct He as [-> | [-> | [-> | [-> | []]]]]; reflexivity.
    - exfalso. revert Hdpi. break_extract_dpi; discriminate. }
  split; [split |].
  - destruct file as [img | e].
    + intros Hnone. destruct (Hopened img) as [[i Hi] | (e & He & _)]; congruence.
    + unfold _read_image_info, try_except. cbn [Image_open]. run_bind.
      destruct (caught_by_reader e) eqn:Hc; [eauto | discriminate].
  - intros (e & -> & Hc).
    unfold _read_image_info, try_except. cbn [Image_open]. run_bind.
    rewrite Hc. reflexivity.
  - intros img ->. apply Hopened.
Qed.

(** X9.  Resolution tags that cannot be read end the reading of the file
    with an exception the reader does not catch.  An empty "dpi" tuple
    raises [IndexError].  Without a "dpi" tag, a "jfif_density" that is not
    a pair raises before its unit code is looked at, so also when the unit
    is unknown and a good "resolution" tag is there: [ValueError] for a
    tuple of another length, [TypeError] for a single number.  Without a
    "dpi" and a "jfif_density" tag, an empty "resolution" tuple raises
    [IndexError]. *)
Theorem unreadable_resolution_tags_raise (p : Path) (img : Image.t) :
  let info := Image.info img in
  (Info.dpi info = Some (Tuple []) ->
     _read_image_info (p, Opened img) = Raise IndexError)
  /\ (forall xs, Info.dpi info = None -> Info.jfif_density info = Some (Tuple xs) ->
      List.length xs <> 2%nat ->
      _read_image_info (p, Opened img) = Raise ValueError)
  /\ (forall x, Info.dpi info = None -> Info.jfif_density info = Some (Scalar x) ->
      _read_image_info (p, Opened img) = Raise TypeError)
  /\ (Info.dpi info = None -> Info.jfif_density info = None ->
      Info.resolution info = Some (Tuple []) ->
      _read_image_info (p, Opened img) = Raise IndexError).
Proof.
  intros info.
  assert (Hthrough : forall e,
            _extract_dpi img = Raise e -> caught_by_reader e = false ->
            _read_image_info (p, Opened img) = Raise e).
  { intros e Hdpi Hc. unfold _read_image_info, try_except. cbn [Image_open]. run_bind.
    destruct (Image.size img) as [w h]. rewrite Hdpi. run_bind. rewrite Hc. reflexivity. }
  repeat split.
  - intros Hd. apply Hthrough; [| reflexivity].
    unfold _extract_dpi. fold info. rewrite Hd. reflexivity.
  - intros xs Hd Hj Hlen. apply Hthrough; [| reflexivity].
    unfold _extract_dpi. fold info. rewrite Hd, Hj.
    destruct xs as [| x [| y [| z xs]]]; cbn in Hlen; try reflexivity. congruence.
  - intros x Hd Hj. apply Hthrough; [| reflexivity].
    unfold _extract_dpi. fold info. rewrite Hd, Hj. reflexivity.
  - intros Hd Hj Hr. apply Hthrough; [| reflexivity].
    unfold _extract_dpi. fold info. rewrite Hd, Hj, Hr. reflexivity.
Qed.

Lemma unreadable_resolution_tags_raise_witness :
  _read_image_info
    (["/r"; "odd.jpg"],
     Opened (Image.mk (8, 8) "L" ["L"] None (Some "JPEG")
               (Info.mk None (Some (Tuple [Int 72])) (Some (Int 0))
                  (Some (Tuple [Int 300; Int 300])) None None)))
  = Raise ValueError.
Proof.
  match goal with |- _read_image_info (?p, Opened ?img) = _ =>
    destruct (unreadable_resolution_tags_raise p img) as (_ & Hdensity & _) end.
  apply (Hdensity [Int 72]); [reflexivity | reflexivity | discriminate].
Defined.

(* ===================================================================== *)
(** ** Limits *)
(* ===================================================================== *)

Lemma scan_loop_extends (t : Z) (g : gen candidate) :
  forall acc r, scan_loop t g acc = Ok r -> exists more, r = (acc ++ more)%list.
Proof.
  induction g as [| e | | c rest IH]; intros acc r Hrun; cbn in Hrun; try discriminate.
  - injection Hrun as <-. exists []. rewrite app_nil_r. reflexivity.
  - destruct (_read_image_info c) as [info | e |]; revert Hrun; run_bind; try discriminate.
    set (result' := match info with Some i => (acc ++ [i])%list | None => acc end).
    assert (Hext : exists m, result' = (acc ++ m)%list).
    { subst result'. destruct info; [eauto | exists []; rewrite app_nil_r; reflexivity]. }
    destruct Hext as [m Hm].
    destruct (Z.of_nat (List.length result') >=? t).
    + intros [= <-]. eauto.
    + intros Hrun. destruct (IH _ _ Hrun) as [more ->].
      exists (m ++ more)%list. rewrite Hm, app_assoc. reflexivity.
Qed.

(** A smaller limit returns the head of what a larger limit returns. *)
Lemma scan_loop_prefix (t t' : Z) (g : gen candidate) :
  1 <= t <= t' ->
  forall acc r',
    Z.of_nat (List.length acc) < t ->
    scan_loop t' g acc = Ok r' ->
    scan_loop t g acc = Ok (take (Z.to_nat t) r').
Proof.
  intros Ht. induction g as [| e | | c rest IH]; intros acc r' Hacc Hrun;
    cbn [scan_loop] in *; try discriminate.
  - injection Hrun as <-. rewrite take_ge by lia. reflexivity.
  - destruct (_read_image_info c) as [info | e |]; revert Hrun; run_bind; try discriminate.
    set (result' := match info with Some i => (acc ++ [i])%list | None => acc end).
    assert (Hlen : Z.of_nat (List.length result') <= t).
    { subst result'. destruct info; [rewrite length_app; cbn |]; lia. }
    destruct (Z.geb_spec (Z.of_nat (List.length result')) t') as [Hge' | Hlt'].
    + intros [= <-].
      destruct (Z.geb_spec (Z.of_nat (List.length result')) t); [| lia].
      rewrite take_ge by lia. reflexivity.
    + intros Hrun.
      destruct (Z.geb_spec (Z.of_nat (List.length result')) t) as [Hge | Hlt].
      * destruct (scan_loop_extends _ _ _ _ Hrun) as [more ->].
        rewrite take_app_length' by lia. reflexivity.
      * apply IH; [lia | exact Hrun].
Qed.

(** X10.  Lowering the limit cuts the result and changes nothing else: when
    a scan with some limit (or with none) returns a list, the same scan with
    a smaller limit of at least 1 returns the first min(limit, 100000)
    records of that list. *)
Theorem smaller_limit_returns_prefix fs directory recursive limit' l result' :
  scan_directory fs directory recursive limit' = Ok result' ->
  1 <= l ->
  limit' = None \/ limit' = Some 0 \/ (exists l', limit' = Some l' /\ l <= l') ->
  scan_directory fs directory recursive (Some l)
  = Ok (take (Z.to_nat (Z.min l MAX_FILES)) result').
Proof.
  intros (root & n & Hroot & Hdir & Hrun)%scan_directory_Ok Hl Hlimit.
  rewrite (scan_directory_loop _ _ _ _ _ _ Hroot Hdir).
  destruct (target_limit_cases (Some l)) as (Hsmall & _ & _).
  rewrite (Hsmall l eq_refl Hl). fold MAX_FILES.
  eapply scan_loop_prefix; [| cbn [List.length]; unfold MAX_FILES; lia | exact Hrun].
  destruct (target_limit_cases limit') as (Hpos & Hzero & _).
  destruct Hlimit as [H | [H | (l' & H & Hle)]].
  - rewrite (Hzero (or_introl H)). unfold MAX_FILES. lia.
  - rewrite (Hzero (or_intror H)). unfold MAX_FILES. lia.
  - rewrite (Hpos l' H ltac:(lia)). unfold MAX_FILES. lia.
Qed.

Lemma smaller_limit_returns_prefix_witness :
  exists result',
    scan_directory (fs_of "/r" tree_mixed) "/r" true None = Ok result'
    /\ scan_directory (fs_of "/r" tree_mixed) "/r" true (Some 2)
       = Ok (take (Z.to_nat (Z.min 2 MAX_FILES)) result').
Proof.
  eexists.
  assert (Hrun : scan_directory (fs_of "/r" tree_mixed) "/r" true None = Ok _)
    by (vm_compute; reflexivity).
  split; [exact Hrun |].
  apply (smaller_limit_returns_prefix _ _ _ _ 2 _ Hrun); [lia | auto].
Defined.

Lemma scan_loop_full (t : Z) (g : gen candidate) :
  forall cs acc,
    Z.of_nat (List.length acc) < t ->
    Forall (fun c => exists o, _read_image_info c = Ok o) cs ->
    t <= Z.of_nat (List.length acc + List.length (readable cs)) ->
    scan_loop t (yield_all cs g) acc
    = Ok (take (Z.to_nat t) (acc ++ readable cs)).
Proof.
  induction cs as [| c cs IH]; intros acc Hacc Hall Hfull; cbn [yield_all scan_loop].
  - unfold readable in Hfull. cbn in Hfull. lia.
  - inversion Hall as [| ? ? [o Ho] Hall']; subst.
    rewrite Ho. run_bind. destruct o as [i |].
    + rewrite (readable_cons_Some _ _ _ Ho) in *.
      destruct (Z.geb_spec (Z.of_nat (List.length (acc ++ [i]))) t) as [Hge | Hlt].
      * rewrite length_app in Hge. cbn in Hge.
        replace (acc ++ i :: readable cs)%list with ((acc ++ [i]) ++ readable cs)%list
          by (rewrite <- app_assoc; reflexivity).
        rewrite take_app_length'; [reflexivity |].
        rewrite length_app. cbn. lia.
      * rewrite IH; [| lia | assumption |].
        -- rewrite <- app_assoc. reflexivity.
        -- rewrite length_app. cbn [List.length] in *. lia.
    + rewrite (readable_cons_None _ _ Ho) in *.
      destruct (Z.geb_spec (Z.of_nat (List.length acc)) t); [lia |].
      apply IH; assumption.
Qed.

(** X11.  Once the limit is reached nothing more is read or enumerated:
    when the first candidates of a walk already give as many records as the
    limit asks for, the loop returns those records whatever the walk would
    do next, be it an unreadable directory or a file whose reading raises. *)
Theorem nothing_is_read_past_the_limit (target_limit : Z) (cs : list candidate) :
  1 <= target_limit ->
  Forall (fun c => exists o, _read_image_info c = Ok o) cs ->
  target_limit <= Z.of_nat (List.length (readable cs)) ->
  forall rest,
    scan_loop target_limit (yield_all cs rest) []
    = Ok (take (Z.to_nat target_limit) (readable cs)).
Proof.
  intros Ht Hall Hfull rest.
  rewrite scan_loop_full; [reflexivity | cbn [List.length]; lia | exact Hall |].
  cbn [List.length]. lia.
Qed.

Lemma nothing_is_read_past_the_limit_witness :
  scan_loop 1
    (yield_all [(["/r"; "a.png"], Opened img_rgb)]
       (Yield (["/r"; "huge.png"], OpenRaises DecompressionBombError) (Throw OSError)))
    []
  = Ok (take (Z.to_nat 1) (readable [(["/r"; "a.png"], Opened img_rgb)])).
Proof.
  apply (nothing_is_read_past_the_limit 1 [(["/r"; "a.png"], Opened img_rgb)]).
  - lia.
  - repeat constructor. eexists. vm_compute. reflexivity.
  - vm_compute. discriminate.
Defined.

(** X12.  With a limit of at least 1, a scan whose walk and reads raise
    nothing returns the accepted records in the order of the walk, cut at
    min(limit, 100000): exactly min(limit, 100000, n) records when n
    candidates are accepted. *)
Theorem scan_returns_first_accepted fs directory recursive l root n :
  1 <= l ->
  resolve_root fs directory = Ok (root, Some n) ->
  is_dir n = true ->
  let paths := _iter_supported_files (root, n) recursive in
  gen_raises paths = None ->
  Forall (fun c => exists o, _read_image_info c = Ok o) (gen_items paths) ->
  let records := readable (gen_items paths) in
  scan_directory fs directory recursive (Some l)
  = Ok (take (Z.to_nat (Z.min l MAX_FILES)) records)
  /\ Z.of_nat (List.length (take (Z.to_nat (Z.min l MAX_FILES)) records))
     = Z.min (Z.min l 100000) (Z.of_nat (List.length records)).
Proof.
  intros Hl Hroot Hdir paths Hquiet Hreads records.
  split.
  - rewrite (scan_directory_loop _ _ _ _ _ _ Hroot Hdir).
    destruct (target_limit_cases (Some l)) as (Hpos & _ & _).
    rewrite (Hpos l eq_refl Hl). fold MAX_FILES. fold paths.
    rewrite (gen_normal paths (iter_supported_files_finishes _ _) Hquiet).
    rewrite scan_loop_all; [reflexivity | cbn [List.length]; unfold MAX_FILES; lia | exact Hreads].
  - rewrite length_take. unfold MAX_FILES. lia.
Qed.

Lemma scan_returns_first_accepted_witness :
  scan_directory (fs_of "/r" tree_mixed) "/r" true (Some 2)
  = Ok (take (Z.to_nat (Z.min 2 MAX_FILES))
          (readable (gen_items (_iter_supported_files (["/r"], tree_mixed) true)))).
Proof.
  apply (scan_returns_first_accepted (fs_of "/r" tree_mixed) "/r" true 2 ["/r"] tree_mixed).
  - lia.
  - vm_compute. reflexivity.
  - reflexivity.
  - vm_compute. reflexivity.
  - set (cs := gen_items _). vm_compute in cs. subst cs.
    repeat constructor; eexists; vm_compute; reflexivity.
Defined.

(** X13.  A negative limit makes the loop stop after the first candidate,
    read or skipped: the scan returns the record of that candidate alone, or
    an empty list, and looks at nothing else. *)
Theorem negative_limit_reads_one_candidate fs directory recursive l root n c rest :
  l < 0 ->
  resolve_root fs directory = Ok (root, Some n) ->
  is_dir n = true ->
  _iter_supported_files (root, n) recursive = Yield c rest ->
  scan_directory fs directory recursive (Some l)
  = (info ← _read_image_info c;
     Ok match info with Some i => [i] | None => [] end).
Proof.
  intros Hl Hroot Hdir Hwalk.
  rewrite (scan_directory_loop _ _ _ _ _ _ Hroot Hdir), Hwalk. cbn [scan_loop].
  destruct (_read_image_info c) as [info | e |]; run_bind; try reflexivity.
  assert (Ht : Z.min (limit_or (Some l) MAX_FILES) MAX_FILES < 0).
  { destruct l; cbn [limit_or]; unfold MAX_FILES; lia. }
  destruct (Z.geb_spec (Z.of_nat (List.length
              (match info with Some i => ([] ++ [i])%list | None => [] end)))
            (Z.min (limit_or (Some l) MAX_FILES) MAX_FILES)); [| lia].
  destruct info; reflexivity.
Qed.

Lemma negative_limit_reads_one_candidate_witness :
  exists i, scan_directory (fs_of "/r" tree_mixed) "/r" true (Some (-1)) = Ok [i].
Proof.
  eexists.
  rewrite (negative_limit_reads_one_candidate (fs_of "/r" tree_mixed) "/r" true (-1)
             ["/r"] tree_mixed (["/r"; "a.png"], Opened img_rgb)
             (Yield (["/r"; "e.tiff"], Opened img_rgb)
                (Yield (["/r"; "broken"; "d.gif"], OpenRaises UnidentifiedImageError)
                   (Yield (["/r"; "sub"; "b.JPG"], Opened img_jfif_cm) Stop)))).
  - vm_compute. reflexivity.
  - lia.
  - vm_compute. reflexivity.
  - reflexivity.
  - vm_compute. reflexivity.
Defined.

(* ===================================================================== *)
(** ** Which names are candidates *)
(* ===================================================================== *)

Lemma ascii_lower_dot (c : ascii) :
  Ascii.eqb (ascii_lower c) "."%char = Ascii.eqb c "."%char.
Proof. destruct c as [[] [] [] [] [] [] [] []]; vm_compute; reflexivity. Qed.

Lemma length_lower (s : string) : String.length (lower s) = String.length s.
Proof. induction s as [| c s IH]; cbn; congruence. Qed.

Lemma rfind_dot_lower (s : string) : forall i, rfind_dot (lower s) i = rfind_dot s i.
Proof.
  induction s as [| c s IH]; intros i; [reflexivity |].
  cbn [lower str_map rfind_dot]. fold (lower s). rewrite IH, ascii_lower_dot. reflexivity.
Qed.

Lemma append_nil_l (s : string) : "" +:+ s = s.
Proof. reflexivity. Qed.

Lemma append_cons (c : ascii) (s1 s2 : string) :
  String c s1 +:+ s2 = String c (s1 +:+ s2).
Proof. reflexivity. Qed.

Lemma rfind_dot_app (s1 s2 : string) :
  forall i,
    rfind_dot (s1 +:+ s2) i
    = match rfind_dot s2 (i + String.length s1) with
      | Some j => Some j
      | None => rfind_dot s1 i
      end.
Proof.
  induction s1 as [| c s1 IH]; intros i.
  - rewrite append_nil_l. cbn [rfind_dot String.length]. rewrite Nat.add_0_r.
    destruct (rfind_dot s2 i); reflexivity.
  - rewrite append_cons. cbn [rfind_dot String.length]. rewrite IH.
    replace (S i + String.length s1)%nat with (i + S (String.length s1))%nat by lia.
    destruct (rfind_dot s2 (i + S (String.length s1))); reflexivity.
Qed.

Lemma length_append (s1 s2 : string) :
  String.length (s1 +:+ s2) = (String.length s1 + String.length s2)%nat.
Proof.
  induction s1 as [| c s1 IH]; [reflexivity |].
  rewrite append_cons. cbn [String.length Nat.add]. congruence.
Qed.

Lemma substring_all (s : string) : String.substring 0 (String.length s) s = s.
Proof. induction s as [| c s IH]; cbn; congruence. Qed.

Lemma substring_after (s1 s2 : string) :
  String.substring (String.length s1) (String.length s2) (s1 +:+ s2) = s2.
Proof.
  induction s1 as [| c s1 IH].
  - rewrite append_nil_l. apply substring_all.
  - rewrite append_cons. cbn [String.length String.substring]. exact IH.
Qed.

Lemma substring_split (s : string) :
  forall i, (i <= String.length s)%nat ->
    s = String.substring 0 i s +:+ String.substring i (String.length s - i) s
    /\ String.length (String.substring 0 i s) = i.
Proof.
  induction s as [| c s IH]; intros i Hi; cbn [String.length] in *.
  - assert (i = 0%nat) as -> by lia. split; reflexivity.
  - destruct i as [| i].
    + cbn [String.substring Nat.sub String.length]. rewrite append_nil_l.
      split; [| reflexivity].
      f_equal. symmetry. apply substring_all.
    + destruct (IH i ltac:(lia)) as [Hs Hl].
      cbn [String.substring Nat.sub String.length]. rewrite append_cons.
      split; [f_equal; exact Hs | f_equal; exact Hl].
Qed.

Lemma rfind_dot_bounds (s : string) :
  forall i j, rfind_dot s i = Some j -> (i <= j < i + String.length s)%nat.
Proof.
  induction s as [| c s IH]; intros i j; cbn [rfind_dot String.length]; [discriminate |].
  destruct (rfind_dot s (S i)) as [k |] eqn:E.
  - intros [= <-]. apply IH in E. lia.
  - destruct (Ascii.eqb c "."%char); [intros [= <-]; lia | discriminate].
Qed.

Definition supported_suffixes : list string :=
  [".jpg"; ".jpeg"; ".png"; ".bmp"; ".gif"; ".tif"; ".tiff"; ".pcx"].

Lemma supported_extensions_keys (ext : string) :
  is_Some (SUPPORTED_EXTENSIONS !! ext) <-> ext ∈ supported_suffixes.
Proof.
  unfold SUPPORTED_EXTENSIONS, supported_suffixes. split.
  - repeat (rewrite lookup_insert; case_decide;
            [ intros _; subst ext; rewrite !elem_of_cons; tauto | ]).
    rewrite lookup_empty. intros [? ?]. discriminate.
  - rewrite !elem_of_cons, elem_of_nil.
    intros [-> | [-> | [-> | [-> | [-> | [-> | [-> | [-> | []]]]]]]]];
      vm_compute; eauto.
Qed.

(** X14.  A file name is a candidate exactly when it is a non-empty stem
    followed by one of the eight extensions in any mix of upper and lower
    case; a name that is nothing but the extension (".png") is none. *)
Theorem supported_names (entry_name : string) :
  is_supported entry_name = true
  <-> exists stem ext,
        entry_name = stem +:+ ext /\ stem <> ""
        /\ lower ext ∈ [".jpg"; ".jpeg"; ".png"; ".bmp"; ".gif"; ".tif"; ".tiff"; ".pcx"].
Proof.
  unfold is_supported. rewrite bool_decide_eq_true, supported_extensions_keys.
  unfold PurePath.suffix, PurePath.name. cbn [List.last].
  fold supported_suffixes. split.
  - destruct (rfind_dot entry_name 0) as [i |] eqn:Hdot.
    + destruct ((0 <? i) && (i <? String.length entry_name - 1))%nat eqn:Hi.
      * apply andb_true_iff in Hi as [Hpos%Nat.ltb_lt Hlast%Nat.ltb_lt].
        intros Hext.
        destruct (substring_split entry_name i ltac:(lia)) as [Hsplit Hlen].
        exists (String.substring 0 i entry_name),
               (String.substring i (String.length entry_name - i) entry_name).
        repeat split; [exact Hsplit | | exact Hext].
        intros Hstem. rewrite Hstem in Hlen. cbn in Hlen. lia.
      * intros H. unfold supported_suffixes, lower in H. cbn [str_map] in H.
        rewrite !elem_of_cons, elem_of_nil in H. intuition discriminate.
    + intros H. unfold supported_suffixes, lower in H. cbn [str_map] in H.
      rewrite !elem_of_cons, elem_of_nil in H. intuition discriminate.
  - intros (stem & ext & -> & Hstem & Hext).
    assert (Hshape : rfind_dot ext (String.length stem) = Some (String.length stem)
                     /\ (2 <= String.length ext)%nat).
    { rewrite <- rfind_dot_lower, <- (length_lower ext).
      unfold supported_suffixes in Hext. rewrite !elem_of_cons, elem_of_nil in Hext.
      destruct Hext as [-> | [-> | [-> | [-> | [-> | [-> | [-> | [-> | []]]]]]]]];
        split; cbn; solve [reflexivity | lia]. }
    destruct Hshape as [Hdot Hlen].
    rewrite rfind_dot_app. cbn [Nat.add]. rewrite Hdot.
    rewrite length_append.
    assert (Hs : (0 < String.length stem)%nat).
    { destruct stem; [congruence | cbn; lia]. }
    assert (((0 <? String.length stem)
             && (String.length stem <? String.length stem + String.length ext - 1))%nat
            = true) as ->.
    { apply andb_true_iff. split; apply Nat.ltb_lt; lia. }
    replace (String.length stem + String.length ext - String.length stem)%nat
      with (String.length ext) by lia.
    rewrite substring_after. exact Hext.
Qed.

(* ===================================================================== *)
(** ** The page *)
(* ===================================================================== *)

(** X15.  The page shows a report only after a submitted scan that returned
    at least one record, and for a limit within the bounds of the form
    (1 to 100000) the report holds at most that many records. *)
Theorem report_is_nonempty_and_within_limit render fs submitted directory limit
    shown results :
  1 <= limit <= MAX_FILES ->
  App.page render fs submitted directory limit = Ok shown ->
  App.report results ∈ shown ->
  submitted = true
  /\ scan_directory fs directory true (Some limit) = Ok results
  /\ 1 <= Z.of_nat (List.length results) <= limit.
Proof.
  intros Hlimit Hpage Hin.
  unfold App.page, App.submit in Hpage.
  destruct submitted.
  - destruct (scan_directory fs directory true (Some limit)) as [rs | e |] eqn:Hscan.
    + revert Hpage. run_bind. cbn [fst snd app].
      destruct rs as [| r rs]; [intros [= <-] |].
      { apply list_elem_of_singleton in Hin. discriminate. }
      destruct (render (r :: rs)) as [[] | e |]; run_bind; try discriminate.
      intros [= <-]. apply list_elem_of_singleton in Hin.
      injection Hin as ->.
      split; [reflexivity |]. split; [reflexivity |].
      split; [simpl List.length; lia |].
      apply scan_directory_Ok in Hscan as (root & n & _ & _ & Hscan).
      destruct (target_limit_cases (Some limit)) as (Hpos & _ & _).
      rewrite (Hpos limit eq_refl ltac:(lia)) in Hscan.
      apply scan_loop_length in Hscan; [| cbn [List.length]; unfold MAX_FILES in *; lia].
      unfold MAX_FILES in *. lia.
    + destruct e; revert Hpage; run_bind; cbn [fst snd app]; try discriminate;
        intros [= <-]; rewrite !elem_of_cons, elem_of_nil in Hin;
        intuition discriminate.
    + discriminate.
  - revert Hpage. run_bind. cbn [fst snd app]. intros [= <-].
    apply list_elem_of_singleton in Hin. discriminate.
Qed.

Lemma report_is_nonempty_and_within_limit_witness :
  exists results,
    App.page render_ok (fs_of "/r" tree_mixed) true "/r" 2 = Ok [App.report results]
    /\ 1 <= Z.of_nat (List.length results) <= 2.
Proof.
  eexists.
  assert (Hpage : App.page render_ok (fs_of "/r" tree_mixed) true "/r" 2
                  = Ok [App.report _])
    by (vm_compute; reflexivity).
  split; [exact Hpage |].
  eapply (report_is_nonempty_and_within_limit render_ok (fs_of "/r" tree_mixed) true "/r" 2).
  - unfold MAX_FILES. lia.
  - exact Hpage.
  - apply list_elem_of_singleton. reflexivity.
Defined.

(** X16.  The page fails exactly when a submitted scan raises an exception
    other than the not-found and the not-a-directory error, or when the scan
    returns at least one record and building the report raises.  The two
    errors are turned into a message wherever in the scan they come from;
    every other exception of the scan, and every exception of the report,
    leaves the script. *)
Theorem page_failures render fs submitted directory limit e :
  App.page render fs submitted directory limit = Raise e
  <-> submitted = true
      /\ ((scan_directory fs directory true (Some limit) = Raise e
           /\ e <> FileNotFoundError /\ e <> NotADirectoryError)
          \/ (exists results,
                scan_directory fs directory true (Some limit) = Ok results
                /\ results <> [] /\ render results = Raise e)).
Proof.
  unfold App.page, App.submit. split.
  - destruct submitted; [| run_bind; discriminate].
    destruct (scan_directory fs directory true (Some limit)) as [rs | e' |].
    + run_bind. cbn [fst snd]. destruct rs as [| r rs]; [discriminate |].
      destruct (render (r :: rs)) as [[] | e' |] eqn:Hrender; run_bind;
        try discriminate.
      intros [= <-]. split; [reflexivity |]. right.
      exists (r :: rs). repeat split; [discriminate | exact Hrender].
    + destruct e'; run_bind; cbn [fst snd]; try discriminate;
        intros [= <-]; split; try reflexivity; left; repeat split; discriminate.
    + discriminate.
  - intros (-> & [(-> & Hnf & Hnd) | (results & -> & Hne & Hrender)]).
    + destruct e; run_bind; congruence.
    + run_bind. cbn [fst snd]. destruct results as [| r rs]; [congruence |].
      rewrite Hrender. reflexivity.
Qed.

Lemma page_failures_witness :
  App.page render_strict (fs_of "/r" tree_bad_name) true "/r" 10 = Raise ValueError
  /\ App.page render_ok (fs_strict "/r" tree_mixed) true long_name 10 = Raise OSError.
Proof.
  split.
  - apply (page_failures render_strict (fs_of "/r" tree_bad_name) true "/r" 10 ValueError).
    split; [reflexivity |]. right. eexists.
    split; [vm_compute; reflexivity |]. split; [discriminate | vm_compute; reflexivity].
  - apply (page_failures render_ok (fs_strict "/r" tree_mixed) true long_name 10 OSError).
    split; [reflexivity |]. left.
    split; [vm_compute; reflexivity |]. split; discriminate.
Defined.

(** X17.  What the page says about the root, once the path is expanded and
    looked up without an exception: a missing root gives the not-found
    message and the hint, a root that is not a directory gives the
    not-a-directory message and the hint, and a root directory that refuses
    enumeration with [PermissionError] gives the same "nothing found"
    warning as a directory without images.  An exception of the expansion
    or of the lookup, other than the two errors, leaves the script. *)
Theorem page_root_messages render fs directory limit :
  let shown := App.page render fs true directory limit in
  (forall root, resolve_root fs directory = Ok (root, None) ->
     shown = Ok [App.error App.not_found; App.info App.hint])
  /\ (forall root n, resolve_root fs directory = Ok (root, Some n) -> is_dir n = false ->
      shown = Ok [App.error App.not_a_directory; App.info App.hint])
  /\ (forall root, resolve_root fs directory = Ok (root, Some (Unreadable PermissionError)) ->
      shown = Ok [App.warning App.nothing_found])
  /\ (forall root, resolve_root fs directory = Ok (root, Some (Directory [])) ->
      shown = Ok [App.warning App.nothing_found])
  /\ (forall e, resolve_root fs directory = Raise e ->
      e <> FileNotFoundError -> e <> NotADirectoryError -> shown = Raise e).
Proof.
  intros shown. unfold shown, App.page, App.submit.
  split; [| split; [| split; [| split]]].
  - intros root Hroot. rewrite (scan_directory_resolved _ _ _ _ _ _ Hroot). reflexivity.
  - intros root n Hroot Hdir.
    rewrite (scan_directory_resolved _ _ _ _ _ _ Hroot), Hdir. reflexivity.
  - intros root Hroot. rewrite (scan_directory_resolved _ _ _ _ _ _ Hroot). reflexivity.
  - intros root Hroot. rewrite (scan_directory_resolved _ _ _ _ _ _ Hroot). reflexivity.
  - intros e Hroot Hnf Hnd. rewrite (scan_directory_unresolved _ _ _ _ _ Hroot).
    destruct e; run_bind; congruence.
Qed.

Lemma page_root_messages_witness :
  App.page render_ok (fs_of "/r" (Unreadable PermissionError)) true "/r" 10
  = Ok [App.warning App.nothing_found]
  /\ App.page render_ok (fs_of "/r" tree_mixed) true "/elsewhere" 10
     = Ok [App.error App.not_found; App.info App.hint]
  /\ App.page render_ok (fs_strict "/r" tree_mixed) true "~nobody" 10
     = Raise RuntimeError.
Proof.
  split; [| split].
  - destruct (page_root_messages render_ok (fs_of "/r" (Unreadable PermissionError)) "/r" 10)
      as (_ & _ & Hdenied & _).
    apply (Hdenied ["/r"]). reflexivity.
  - destruct (page_root_messages render_ok (fs_of "/r" tree_mixed) "/elsewhere" 10)
      as (Hmissing & _).
    apply (Hmissing ["/elsewhere"]). reflexivity.
  - destruct (page_root_messages render_ok (fs_strict "/r" tree_mixed) "~nobody" 10)
      as (_ & _ & _ & _ & Hraise).
    apply Hraise; [reflexivity | discriminate | discriminate].
Defined.
